(** * nrq lobby server: a shallow embedding of [server/index.js]

    The server keeps three JavaScript [Map]s (lobbies, players,
    lobbySubscriptions), a [LobbyManager] class whose methods read and
    mutate them, and a WebSocket dispatcher that calls the manager and
    fans notifications out to the connected sockets.

    Modelling choices:
    - a [Map] keyed by uuid strings is a [gmap string _]; a lobby object
      held by the map and mutated in place is re-inserted under its key;
    - [undefined] is [None]; a lobby id that may be [undefined] has type
      [option string];
    - [uuidv4()], [new Date()] and [Math.random()] are read from a record
      of draws handed to each call;
    - numbers that arrive in a message ([maxPlayers], [level]) are
      integers ([Z]); a [Date] is its millisecond count;
    - a JavaScript string is the byte string of its UTF-8 encoding;
    - everything a handler sends is collected, in order, in a list. *)

From stdpp Require Import gmap strings list fin_maps.

Local Open Scope string_scope.
Local Open Scope list_scope.
Local Open Scope nat_scope.

#[local] Set Warnings "-clear-no-such-hyp".

(** ** JavaScript helpers *)

(** Truthiness of a string: only the empty string is falsy. *)
Definition truthy (s : string) : bool :=
  match s with
  | EmptyString => false
  | String _ _ => true
  end.

(** [a || b] on strings. *)
Definition or_else (a b : string) : string := if truthy a then a else b.

(** [s.charAt(n)]: the one-character string at [n], empty out of range. *)
Definition charAt (s : string) (n : nat) : string :=
  match String.get n s with
  | Some c => String c EmptyString
  | None => EmptyString
  end.

(** The string with the given bytes. *)
Definition bytes (codes : list nat) : string :=
  foldr (λ n s, String (Ascii.ascii_of_nat n) s) EmptyString codes.

(** The bytes of a string. *)
Definition codes (s : string) : list nat :=
  Ascii.nat_of_ascii <$> String.list_ascii_of_string s.

(** The UTF-8 encodings of the code points [String.prototype.trim]
    removes, the WhiteSpace and LineTerminator productions of
    ECMAScript: U+0009 to U+000D, U+0020, U+00A0, U+1680, U+2000 to
    U+200A, U+2028, U+2029, U+202F, U+205F, U+3000 and U+FEFF. *)
Definition white_space : list (list nat) :=
  [[9]; [10]; [11]; [12]; [13]; [32];
   [194; 160];
   [225; 154; 128];
   [226; 128; 128]; [226; 128; 129]; [226; 128; 130]; [226; 128; 131];
   [226; 128; 132]; [226; 128; 133]; [226; 128; 134]; [226; 128; 135];
   [226; 128; 136]; [226; 128; 137]; [226; 128; 138];
   [226; 128; 168]; [226; 128; 169]; [226; 128; 175];
   [226; 129; 159];
   [227; 128; 128];
   [239; 187; 191]].

(** What follows [w] in [l], if [l] starts with [w]. *)
Definition strip_prefix (w l : list nat) : option (list nat) :=
  if bool_decide (take (length w) l = w) then Some (drop (length w) l) else None.

(** What follows the first of [ws] that [l] starts with. *)
Fixpoint strip_one (ws : list (list nat)) (l : list nat) : option (list nat) :=
  match ws with
  | [] => None
  | w :: ws' =>
      match strip_prefix w l with
      | Some rest => Some rest
      | None => strip_one ws' l
      end
  end.

(** Removes leading members of [ws] from [l], at most [fuel] of them. *)
Fixpoint strip_leading (ws : list (list nat)) (fuel : nat) (l : list nat)
    : list nat :=
  match fuel with
  | 0 => l
  | S fuel' =>
      match strip_one ws l with
      | Some rest => strip_leading ws fuel' rest
      | None => l
      end
  end.

Definition trimStart (s : string) : string :=
  bytes (strip_leading white_space (String.length s) (codes s)).

(** White space at the end is white space, read backwards, at the start
    of the reversed bytes. *)
Definition trimEnd (s : string) : string :=
  bytes (reverse (strip_leading (reverse <$> white_space) (String.length s)
                    (reverse (codes s)))).

Definition trim (s : string) : string := trimEnd (trimStart s).

(** [arr.slice(-n)]: the last [n] elements (all of them when shorter). *)
Definition slice_last {A} (n : nat) (arr : list A) : list A :=
  drop (length arr - n) arr.

(** [arr.map(f).filter(Boolean)] where [f] yields an object or
    [undefined]: the [undefined] results are removed. *)
Fixpoint filter_Boolean {A} (arr : list (option A)) : list A :=
  match arr with
  | [] => []
  | Some x :: rest => x :: filter_Boolean rest
  | None :: rest => filter_Boolean rest
  end.

(** ** Data *)

Module Player.
Record t := mk { id : string; name : string; level : Z }.
End Player.

Module ChatMessage.
Record t := mk { id : string; user : string; message : string; timestamp : Z }.
End ChatMessage.

Module Lobby.
Record t := mk {
  id : string;
  title : string;
  hostId : string;
  players : list string;
  maxPlayers : Z;
  password : string;
  isPrivate : bool;
  createdAt : Z;
  chatMessages : list ChatMessage.t
}.

(** Field assignments [lobby.f = v]. *)
Definition set_hostId (v : string) (l : t) : t :=
  mk (id l) (title l) v (players l) (maxPlayers l) (password l)
     (isPrivate l) (createdAt l) (chatMessages l).
Definition set_players (v : list string) (l : t) : t :=
  mk (id l) (title l) (hostId l) v (maxPlayers l) (password l)
     (isPrivate l) (createdAt l) (chatMessages l).
Definition set_password (v : string) (l : t) : t :=
  mk (id l) (title l) (hostId l) (players l) (maxPlayers l) v
     (isPrivate l) (createdAt l) (chatMessages l).
Definition set_isPrivate (v : bool) (l : t) : t :=
  mk (id l) (title l) (hostId l) (players l) (maxPlayers l) (password l)
     v (createdAt l) (chatMessages l).
Definition set_chatMessages (v : list ChatMessage.t) (l : t) : t :=
  mk (id l) (title l) (hostId l) (players l) (maxPlayers l) (password l)
     (isPrivate l) (createdAt l) v.

(** [lobby.chatMessages.push(m)]. *)
Definition push_chat (m : ChatMessage.t) (l : t) : t :=
  set_chatMessages (chatMessages l ++ [m]) l.
End Lobby.

(** The three module-level maps. *)
Record State := mkState {
  lobbies : gmap string Lobby.t;
  players : gmap string Player.t;
  lobbySubscriptions : gmap string string
}.

Definition initial : State := mkState ∅ ∅ ∅.

(** What one call reads from [uuidv4()], [new Date()] and
    [Math.floor(Math.random() * chars.length)]: no method draws more than
    two uuids and two dates; [rolls i] is the index drawn in round [i] of
    the password loop. *)
Record Draws := mkDraws {
  uuid1 : string;
  uuid2 : string;
  now1 : Z;
  now2 : Z;
  rolls : nat → nat
}.

(** Return values [{ success: true, ... }] and [{ success: false, error }]. *)
Inductive Result (A : Type) : Type :=
  | Success (value : A)
  | Failure (error : string).
Arguments Success {A} value.
Arguments Failure {A} error.

(** The success object of [leaveLobby]: either [{ lobbyDeleted: true }] or
    [{ lobby }]. *)
Inductive LeaveOutcome :=
  | LobbyDeleted
  | StillOpen (lobby : Lobby.t).

(** An entry of [getPublicLobbies()]. *)
Record LobbySummary := mkSummary {
  s_id : string;
  s_title : string;
  s_players : list Player.t;
  s_maxPlayers : Z;
  s_createdAt : Z
}.

(** The [lobby] of [getLobbyDetails]: [{ ...lobby, players: resolved }],
    the fields of the lobby with the member ids replaced by the player
    records found for them. *)
Record LobbyView := mkView {
  v_id : string;
  v_title : string;
  v_hostId : string;
  v_players : list Player.t;
  v_maxPlayers : Z;
  v_password : string;
  v_isPrivate : bool;
  v_createdAt : Z;
  v_chatMessages : list ChatMessage.t
}.

(** ** LobbyManager *)

Module LobbyManager.

Definition chars : string := "ABCDEFGHIJKLMNOPQRSTUVWXYZ0123456789".

Definition generatePassword (d : Draws) : string :=
  foldl (λ result i, result +:+ charAt chars (rolls d i)) EmptyString (seq 0 8).

(** [this.lobbies.get(lobbyId)] where [lobbyId] may be [undefined]. *)
Definition lobbies_get (st : State) (lobbyId : option string) : option Lobby.t :=
  match lobbyId with
  | Some k => lobbies st !! k
  | None => None
  end.

(** [players.get(pid)?.name || fallback]. *)
Definition nameOf (st : State) (pid : string) (fallback : string) : string :=
  match players st !! pid with
  | Some p => or_else (Player.name p) fallback
  | None => fallback
  end.

Definition systemMessage (uuid : string) (text : string) (now : Z) : ChatMessage.t :=
  ChatMessage.mk uuid "System" text now.

(** [createLobby(title, hostId, maxPlayers = 3)]. *)
Definition createLobby (d : Draws) (title hostId : string)
    (maxPlayers : option Z) (st : State) : State * Lobby.t :=
  let lobbyId := uuid1 d in
  let lobby :=
    Lobby.mk lobbyId title hostId [hostId] (default 3%Z maxPlayers)
      (generatePassword d) false (now1 d)
      [systemMessage (uuid2 d) "Lobby created! Welcome!" (now2 d)] in
  (mkState (<[lobbyId := lobby]> (lobbies st))
           (players st)
           (<[hostId := lobbyId]> (lobbySubscriptions st)),
   lobby).

Definition joinLobby (d : Draws) (lobbyId : option string) (playerId : string)
    (st : State) : State * Result Lobby.t :=
  match lobbyId, lobbies_get st lobbyId with
  | Some lid, Some lobby =>
      if (Z.of_nat (length (Lobby.players lobby)) >=? Lobby.maxPlayers lobby)%Z then
        (st, Failure "Lobby is full")
      else if bool_decide (playerId ∈ Lobby.players lobby) then
        (st, Failure "Already in lobby")
      else
        let lobby1 := Lobby.set_players (Lobby.players lobby ++ [playerId]) lobby in
        let lobby2 :=
          Lobby.push_chat
            (systemMessage (uuid1 d)
               (nameOf st playerId "Player" +:+ " joined the lobby") (now1 d))
            lobby1 in
        (mkState (<[lid := lobby2]> (lobbies st))
                 (players st)
                 (<[playerId := lid]> (lobbySubscriptions st)),
         Success lobby2)
  | _, _ => (st, Failure "Lobby not found")
  end.

Definition leaveLobby (d : Draws) (playerId : string) (st : State)
    : State * Result LeaveOutcome :=
  match lobbySubscriptions st !! playerId with
  | None => (st, Failure "Not in any lobby")
  | Some lobbyId =>
      if negb (truthy lobbyId) then (st, Failure "Not in any lobby") else
      match lobbies st !! lobbyId with
      | None => (st, Failure "Lobby not found")
      | Some lobby =>
          let lobby1 :=
            Lobby.set_players
              (filter (λ id, id ≠ playerId) (Lobby.players lobby)) lobby in
          let subs := delete playerId (lobbySubscriptions st) in
          let lobby2 :=
            Lobby.push_chat
              (systemMessage (uuid1 d)
                 (nameOf st playerId "Player" +:+ " left the lobby") (now1 d))
              lobby1 in
          if bool_decide (Lobby.hostId lobby2 = playerId) then
            match Lobby.players lobby2 with
            | newHost :: _ =>
                let lobby3 := Lobby.set_hostId newHost lobby2 in
                let lobby4 :=
                  Lobby.push_chat
                    (systemMessage (uuid2 d)
                       (nameOf st newHost "Player" +:+ " is now the host") (now2 d))
                    lobby3 in
                (mkState (<[lobbyId := lobby4]> (lobbies st)) (players st) subs,
                 Success (StillOpen lobby4))
            | [] =>
                (mkState (delete lobbyId (lobbies st)) (players st) subs,
                 Success LobbyDeleted)
            end
          else
            (mkState (<[lobbyId := lobby2]> (lobbies st)) (players st) subs,
             Success (StillOpen lobby2))
      end
  end.

(** [lobby.players.forEach(pid => lobbySubscriptions.delete(pid))]. *)
Definition unsubscribeAll (pids : list string) (subs : gmap string string)
    : gmap string string :=
  foldl (λ m pid, delete pid m) subs pids.

Definition delistLobby (lobbyId : option string) (playerId : string) (st : State)
    : State * Result unit :=
  match lobbyId, lobbies_get st lobbyId with
  | Some lid, Some lobby =>
      if bool_decide (Lobby.hostId lobby ≠ playerId) then
        (st, Failure "Only host can delist lobby")
      else
        (mkState (delete lid (lobbies st))
                 (players st)
                 (unsubscribeAll (Lobby.players lobby) (lobbySubscriptions st)),
         Success ())
  | _, _ => (st, Failure "Lobby not found")
  end.

Definition addChatMessage (d : Draws) (lobbyId : option string)
    (playerId message : string) (st : State) : State * Result ChatMessage.t :=
  match lobbyId, lobbies_get st lobbyId with
  | Some lid, Some lobby =>
      if negb (bool_decide (playerId ∈ Lobby.players lobby)) then
        (st, Failure "Not in this lobby")
      else
        let chatMessage :=
          ChatMessage.mk (uuid1 d) (nameOf st playerId "Unknown")
                         (trim message) (now1 d) in
        let lobby1 := Lobby.push_chat chatMessage lobby in
        let lobby2 :=
          if 100 <? length (Lobby.chatMessages lobby1) then
            Lobby.set_chatMessages (slice_last 100 (Lobby.chatMessages lobby1)) lobby1
          else lobby1 in
        (mkState (<[lid := lobby2]> (lobbies st)) (players st) (lobbySubscriptions st),
         Success chatMessage)
  | _, _ => (st, Failure "Lobby not found")
  end.

Definition regeneratePassword (d : Draws) (lobbyId : option string)
    (playerId : string) (st : State) : State * Result string :=
  match lobbyId, lobbies_get st lobbyId with
  | Some lid, Some lobby =>
      if bool_decide (Lobby.hostId lobby ≠ playerId) then
        (st, Failure "Only host can regenerate password")
      else
        let lobby1 := Lobby.set_password (generatePassword d) lobby in
        (mkState (<[lid := lobby1]> (lobbies st)) (players st) (lobbySubscriptions st),
         Success (Lobby.password lobby1))
  | _, _ => (st, Failure "Lobby not found")
  end.

Definition togglePrivacy (lobbyId : option string) (playerId : string) (st : State)
    : State * Result bool :=
  match lobbyId, lobbies_get st lobbyId with
  | Some lid, Some lobby =>
      if bool_decide (Lobby.hostId lobby ≠ playerId) then
        (st, Failure "Only host can change privacy")
      else
        let lobby1 := Lobby.set_isPrivate (negb (Lobby.isPrivate lobby)) lobby in
        (mkState (<[lid := lobby1]> (lobbies st)) (players st) (lobbySubscriptions st),
         Success (Lobby.isPrivate lobby1))
  | _, _ => (st, Failure "Lobby not found")
  end.

(** [ids.map(pid => players.get(pid)).filter(Boolean)]. *)
Definition resolvePlayers (st : State) (ids : list string) : list Player.t :=
  filter_Boolean ((λ pid, players st !! pid) <$> ids).

Definition summary (st : State) (lobby : Lobby.t) : LobbySummary :=
  mkSummary (Lobby.id lobby) (Lobby.title lobby)
            (resolvePlayers st (Lobby.players lobby))
            (Lobby.maxPlayers lobby) (Lobby.createdAt lobby).

(** [Array.from(this.lobbies.values())]; the iteration order of the
    [Map] is abstracted to that of [map_to_list]. *)
Definition lobby_values (st : State) : list Lobby.t := (map_to_list (lobbies st)).*2.

Definition getPublicLobbies (st : State) : list LobbySummary :=
  summary st <$> filter (λ lobby, Lobby.isPrivate lobby = false) (lobby_values st).

(** [{ ...lobby, players: lobby.players.map(...).filter(Boolean) }]. *)
Definition viewOf (st : State) (lobby : Lobby.t) : LobbyView :=
  mkView (Lobby.id lobby) (Lobby.title lobby) (Lobby.hostId lobby)
         (resolvePlayers st (Lobby.players lobby))
         (Lobby.maxPlayers lobby) (Lobby.password lobby) (Lobby.isPrivate lobby)
         (Lobby.createdAt lobby) (Lobby.chatMessages lobby).

Definition getLobbyDetails (lobbyId : option string) (playerId : string) (st : State)
    : Result LobbyView :=
  match lobbies_get st lobbyId with
  | None => Failure "Lobby not found"
  | Some lobby =>
      if negb (bool_decide (playerId ∈ Lobby.players lobby)) then
        Failure "Not in this lobby"
      else
        Success (viewOf st lobby)
  end.

End LobbyManager.

(** ** The WebSocket dispatcher *)

Module Server.
Import LobbyManager.

Inductive ReadyState := CONNECTING | OPEN | CLOSING | CLOSED.

(** A socket of [wss.clients]: [sock] stands for the identity of the
    JavaScript object, [playerId] is the uuid stored on it at connection. *)
Record Client := mkClient {
  sock : nat;
  playerId : string;
  readyState : ReadyState
}.

(** [client.readyState === client.OPEN]. *)
Definition isOpen (c : Client) : bool :=
  match readyState c with
  | OPEN => true
  | _ => false
  end.

(** The [data] of an outgoing envelope. *)
Inductive Payload :=
  | DEmpty
  | DPlayerRegistered (playerId : string) (player : option Player.t)
  | DLobbies (lobbies : list LobbySummary)
  | DLobby (lobby : Lobby.t)
  | DPlayerJoined (player : option Player.t) (lobby : Lobby.t)
  | DPlayerLeft (playerId : string) (lobby : Lobby.t)
  | DChat (message : ChatMessage.t)
  | DPassword (password : string)
  | DPrivacy (isPrivate : bool)
  | DLobbyDetails (lobby : LobbyView)
  | DError (message : string).

(** One [client.send(JSON.stringify({ type, data }))]. *)
Record Sent := mkSent {
  recipient : Client;
  type : string;
  data : Payload
}.

Definition sendToClient (client : Client) (type : string) (data : Payload)
    : list Sent :=
  if isOpen client then [mkSent client type data] else [].

Definition broadcast (clients : list Client) (type : string) (data : Payload)
    : list Sent :=
  clients ≫= (λ client, sendToClient client type data).

(** [client !== excludeClient]. *)
Definition differs (excludeClient : option Client) (client : Client) : bool :=
  match excludeClient with
  | Some e => negb (sock client =? sock e)
  | None => true
  end.

Definition broadcastToLobby (st : State) (wss_clients : list Client)
    (lobbyId : option string) (type : string) (data : Payload)
    (excludeClient : option Client) : list Sent :=
  match lobbies_get st lobbyId with
  | None => []
  | Some lobby =>
      let lobbyClients :=
        filter (λ client,
                  playerId client ∈ Lobby.players lobby
                  ∧ differs excludeClient client = true)
               wss_clients in
      broadcast lobbyClients type data
  end.

(** A parsed incoming envelope. [Malformed] stands for a frame on which
    [JSON.parse] or the access to a field of [data] throws; [Unknown]
    for a [type] outside the switch. *)
Inductive ClientMsg :=
  | RegisterPlayer (name : string) (level : option Z)
  | GetLobbies
  | CreateLobby (title : string) (maxPlayers : option Z)
  | JoinLobby (lobbyId : option string)
  | LeaveLobby
  | DelistLobby
  | SendChatMessage (message : string)
  | RegeneratePassword
  | TogglePrivacy
  | GetLobbyDetails
  | Unknown
  | Malformed.

(** [data.level || 1]. *)
Definition levelOr1 (level : option Z) : Z :=
  match level with
  | Some n => if (n =? 0)%Z then 1%Z else n
  | None => 1%Z
  end.

Definition lobbiesUpdated (st : State) (wss_clients : list Client) : list Sent :=
  broadcast wss_clients "lobbies_updated" (DLobbies (getPublicLobbies st)).

(** [ws.on('message', ...)]: the new maps and what was sent. *)
Definition onMessage (wss_clients : list Client) (d : Draws) (ws : Client)
    (msg : ClientMsg) (st : State) : State * list Sent :=
  let me := playerId ws in
  match msg with
  | RegisterPlayer name level =>
      let st1 :=
        mkState (lobbies st)
                (<[me := Player.mk me name (levelOr1 level)]> (players st))
                (lobbySubscriptions st) in
      (st1, sendToClient ws "player_registered"
              (DPlayerRegistered me (players st1 !! me)))
  | GetLobbies =>
      (st, sendToClient ws "lobbies_list" (DLobbies (getPublicLobbies st)))
  | CreateLobby title maxPlayers =>
      let '(st1, newLobby) := createLobby d title me maxPlayers st in
      (st1, sendToClient ws "lobby_created" (DLobby newLobby)
            ++ lobbiesUpdated st1 wss_clients)
  | JoinLobby lobbyId =>
      let '(st1, joinResult) := joinLobby d lobbyId me st in
      match joinResult with
      | Success lobby =>
          (st1, sendToClient ws "lobby_joined" (DLobby lobby)
                ++ broadcastToLobby st1 wss_clients lobbyId "player_joined"
                     (DPlayerJoined (players st1 !! me) lobby) (Some ws)
                ++ lobbiesUpdated st1 wss_clients)
      | Failure error => (st1, sendToClient ws "error" (DError error))
      end
  | LeaveLobby =>
      let '(st1, leaveResult) := leaveLobby d me st in
      match leaveResult with
      | Success outcome =>
          (st1, sendToClient ws "lobby_left" DEmpty
                ++ match outcome with
                   | LobbyDeleted => []
                   | StillOpen lobby =>
                       broadcastToLobby st1 wss_clients
                         (lobbySubscriptions st1 !! me) "player_left"
                         (DPlayerLeft me lobby) (Some ws)
                   end
                ++ lobbiesUpdated st1 wss_clients)
      | Failure error => (st1, sendToClient ws "error" (DError error))
      end
  | DelistLobby =>
      let currentLobbyId := lobbySubscriptions st !! me in
      let '(st1, delistResult) := delistLobby currentLobbyId me st in
      match delistResult with
      | Success _ =>
          (st1, broadcastToLobby st1 wss_clients currentLobbyId
                  "lobby_delisted" DEmpty None
                ++ lobbiesUpdated st1 wss_clients)
      | Failure error => (st1, sendToClient ws "error" (DError error))
      end
  | SendChatMessage message =>
      let currentLobby := lobbySubscriptions st !! me in
      let '(st1, chatResult) := addChatMessage d currentLobby me message st in
      match chatResult with
      | Success chatMessage =>
          (st1, broadcastToLobby st1 wss_clients currentLobby
                  "chat_message" (DChat chatMessage) None)
      | Failure error => (st1, sendToClient ws "error" (DError error))
      end
  | RegeneratePassword =>
      let lobbyForPassword := lobbySubscriptions st !! me in
      let '(st1, passwordResult) := regeneratePassword d lobbyForPassword me st in
      match passwordResult with
      | Success password =>
          (st1, broadcastToLobby st1 wss_clients lobbyForPassword
                  "password_updated" (DPassword password) None)
      | Failure error => (st1, sendToClient ws "error" (DError error))
      end
  | TogglePrivacy =>
      let lobbyForPrivacy := lobbySubscriptions st !! me in
      let '(st1, privacyResult) := togglePrivacy lobbyForPrivacy me st in
      match privacyResult with
      | Success isPrivate =>
          (st1, broadcastToLobby st1 wss_clients lobbyForPrivacy
                  "privacy_updated" (DPrivacy isPrivate) None
                ++ lobbiesUpdated st1 wss_clients)
      | Failure error => (st1, sendToClient ws "error" (DError error))
      end
  | GetLobbyDetails =>
      let lobbyId := lobbySubscriptions st !! me in
      match getLobbyDetails lobbyId me st with
      | Success lobby => (st, sendToClient ws "lobby_details" (DLobbyDetails lobby))
      | Failure error => (st, sendToClient ws "error" (DError error))
      end
  | Unknown => (st, sendToClient ws "error" (DError "Unknown message type"))
  | Malformed => (st, sendToClient ws "error" (DError "Invalid message format"))
  end.

(** [ws.on('close', ...)]. *)
Definition onClose (wss_clients : list Client) (d : Draws) (ws : Client)
    (st : State) : State * list Sent :=
  let me := playerId ws in
  let '(st1, leaveResult) := leaveLobby d me st in
  let left :=
    match leaveResult with
    | Success (StillOpen lobby) =>
        broadcastToLobby st1 wss_clients (lobbySubscriptions st1 !! me)
          "player_left" (DPlayerLeft me lobby) None
    | _ => []
    end in
  let st2 :=
    mkState (lobbies st1) (delete me (players st1))
            (delete me (lobbySubscriptions st1)) in
  (st2, left ++ lobbiesUpdated st2 wss_clients).

(** What can happen to the server: a frame arrives on a socket, or a
    socket closes. Each event carries the sockets connected at that
    time and the values drawn while it is handled. *)
Inductive Event :=
  | Message (wss_clients : list Client) (d : Draws) (ws : Client) (msg : ClientMsg)
  | Close (wss_clients : list Client) (d : Draws) (ws : Client).

Definition step (e : Event) (st : State) : State * list Sent :=
  match e with
  | Message cs d ws msg => onMessage cs d ws msg st
  | Close cs d ws => onClose cs d ws st
  end.

(** The maps after a sequence of events, oldest first. *)
Definition run (es : list Event) (st : State) : State :=
  foldl (λ s e, (step e s).1) st es.

(** States the server reaches from the empty maps through events that
    each satisfy [ok] in the state they arrive in. *)
Inductive Reachable (ok : State → Event → Prop) : State → Prop :=
  | reach_initial : Reachable ok initial
  | reach_step st e :
      Reachable ok st → ok st e → Reachable ok (step e st).1.

Definition any_event : State → Event → Prop := λ _ _, True.

End Server.

(** ** Vocabulary of the properties *)

(** One call of a [LobbyManager] method that can fail. *)
Inductive Call :=
  | CallJoin (lobbyId : option string) (playerId : string)
  | CallLeave (playerId : string)
  | CallDelist (lobbyId : option string) (playerId : string)
  | CallChat (lobbyId : option string) (playerId message : string)
  | CallRegenerate (lobbyId : option string) (playerId : string)
  | CallToggle (lobbyId : option string) (playerId : string)
  | CallDetails (lobbyId : option string) (playerId : string).

(** The [error] of a result, if it is a failure. *)
Definition errorOf {A} (r : Result A) : option string :=
  match r with
  | Failure error => Some error
  | Success _ => None
  end.

(** The maps after a call, and its error if it failed. *)
Definition call (d : Draws) (c : Call) (st : State) : State * option string :=
  match c with
  | CallJoin lobbyId p =>
      let r := LobbyManager.joinLobby d lobbyId p st in (r.1, errorOf r.2)
  | CallLeave p =>
      let r := LobbyManager.leaveLobby d p st in (r.1, errorOf r.2)
  | CallDelist lobbyId p =>
      let r := LobbyManager.delistLobby lobbyId p st in (r.1, errorOf r.2)
  | CallChat lobbyId p message =>
      let r := LobbyManager.addChatMessage d lobbyId p message st in (r.1, errorOf r.2)
  | CallRegenerate lobbyId p =>
      let r := LobbyManager.regeneratePassword d lobbyId p st in (r.1, errorOf r.2)
  | CallToggle lobbyId p =>
      let r := LobbyManager.togglePrivacy lobbyId p st in (r.1, errorOf r.2)
  | CallDetails lobbyId p =>
      (st, errorOf (LobbyManager.getLobbyDetails lobbyId p st))
  end.

(** Member ids of a lobby that have no entry in [players]. *)
Definition unregistered (st : State) (ids : list string) : list string :=
  filter (λ pid, players st !! pid = None) ids.

(** A lobby holds no more members than [maxPlayers]. *)
Definition within_capacity (lobby : Lobby.t) : Prop :=
  (Z.of_nat (length (Lobby.players lobby)) ≤ Lobby.maxPlayers lobby)%Z.

Definition capacity_respected (st : State) : Prop :=
  map_Forall (λ _ lobby, within_capacity lobby) (lobbies st).

(** Events whose [create_lobby] frames, if they name a [maxPlayers], name
    one that has room for the host. *)
Definition room_for_host (_ : State) (e : Server.Event) : Prop :=
  match e with
  | Server.Message _ _ _ (Server.CreateLobby _ (Some n)) => (1 ≤ n)%Z
  | _ => True
  end.

(** The maps a frame leaves behind, as the method it dispatches to
    leaves them. *)
Definition afterMessage (d : Draws) (me : string) (msg : Server.ClientMsg)
    (st : State) : State :=
  match msg with
  | Server.RegisterPlayer name level =>
      mkState (lobbies st)
              (<[me := Player.mk me name (Server.levelOr1 level)]> (players st))
              (lobbySubscriptions st)
  | Server.CreateLobby title maxPlayers =>
      (LobbyManager.createLobby d title me maxPlayers st).1
  | Server.JoinLobby lobbyId => (LobbyManager.joinLobby d lobbyId me st).1
  | Server.LeaveLobby => (LobbyManager.leaveLobby d me st).1
  | Server.DelistLobby =>
      (LobbyManager.delistLobby (lobbySubscriptions st !! me) me st).1
  | Server.SendChatMessage message =>
      (LobbyManager.addChatMessage d (lobbySubscriptions st !! me) me message st).1
  | Server.RegeneratePassword =>
      (LobbyManager.regeneratePassword d (lobbySubscriptions st !! me) me st).1
  | Server.TogglePrivacy =>
      (LobbyManager.togglePrivacy (lobbySubscriptions st !! me) me st).1
  | _ => st
  end.

(** Identity teardown of the close handler. *)
Definition forget (me : string) (st : State) : State :=
  mkState (lobbies st) (delete me (players st)) (delete me (lobbySubscriptions st)).

(** No connection id is listed in two lobbies. *)
Definition one_lobby_per_connection (st : State) : Prop :=
  ∀ pid a b la lb,
    lobbies st !! a = Some la → lobbies st !! b = Some lb →
    pid ∈ Lobby.players la → pid ∈ Lobby.players lb → a = b.

(** A connection id has a subscription exactly when some lobby lists it. *)
Definition subscribed_iff_member (st : State) : Prop :=
  ∀ pid,
    is_Some (lobbySubscriptions st !! pid)
    ↔ ∃ lid lobby, lobbies st !! lid = Some lobby ∧ pid ∈ Lobby.players lobby.

Definition membership_consistent (st : State) : Prop :=
  one_lobby_per_connection st ∧ subscribed_iff_member st.

(** The subscription of a connection is the lobby that lists it, and
    lobby ids are non-empty strings. *)
Definition subscriptions_exact (st : State) : Prop :=
  (∀ pid lid,
     lobbySubscriptions st !! pid = Some lid
     ↔ ∃ lobby, lobbies st !! lid = Some lobby ∧ pid ∈ Lobby.players lobby)
  ∧ (∀ lid lobby, lobbies st !! lid = Some lobby → truthy lid = true).

(** The id [uuidv4()] hands to [createLobby] is a non-empty string that
    names no lobby of the store. *)
Definition fresh_lobby_id (st : State) (e : Server.Event) : Prop :=
  match e with
  | Server.Message _ d _ (Server.CreateLobby _ _) =>
      lobbies st !! uuid1 d = None ∧ truthy (uuid1 d) = true
  | _ => True
  end.

(** Events whose [create_lobby] and [join_lobby] frames come from
    connections that hold no subscription. *)
Definition joins_from_outside (st : State) (e : Server.Event) : Prop :=
  fresh_lobby_id st e
  ∧ match e with
    | Server.Message _ _ ws (Server.CreateLobby _ _)
    | Server.Message _ _ ws (Server.JoinLobby _) =>
        lobbySubscriptions st !! Server.playerId ws = None
    | _ => True
    end.

(** Every event of [es], played in order from [st], is allowed by [ok]
    in the state it arrives in. *)
Fixpoint allowed (ok : State → Server.Event → Prop) (es : list Server.Event)
    (st : State) : Prop :=
  match es with
  | [] => True
  | e :: es' => ok st e ∧ allowed ok es' (Server.step e st).1
  end.

(** Who was sent which type of envelope, in order. *)
Definition deliveries (out : list Server.Sent) : list (string * string) :=
  (λ s, (Server.playerId (Server.recipient s), Server.type s)) <$> out.

(** ** Concrete runs *)

Module Scenario.
Import Server.

Definition draws (a b : string) : Draws := mkDraws a b 0 0 (λ i, i).

Definition H : Client := mkClient 0 "H" OPEN.
Definition P : Client := mkClient 1 "P" OPEN.
Definition Q : Client := mkClient 2 "Q" OPEN.
Definition everyone : list Client := [H; P; Q].

Definition frame (a b : string) (ws : Client) (msg : ClientMsg) : Event :=
  Message everyone (draws a b) ws msg.

(** H opens lobby L1 for two players. *)
Definition solo : list Event :=
  [frame "L1" "m0" H (CreateLobby "A" (Some 2%Z))].

(** ... and P joins it. *)
Definition duo : list Event :=
  solo ++ [frame "m1" "m2" P (JoinLobby (Some "L1"))].

(** H registers first, then the same. *)
Definition named_duo : list Event :=
  frame "r" "r" H (RegisterPlayer "Hank" None) :: duo.

(** H opens a lobby with [maxPlayers: 0]. *)
Definition no_room : list Event :=
  [frame "L1" "m0" H (CreateLobby "A" (Some 0%Z))].

(** H opens two lobbies in a row. *)
Definition two_lobbies : list Event :=
  [frame "L1" "m0" H (CreateLobby "A" None);
   frame "L2" "m1" H (CreateLobby "B" None)].

(** H opens a lobby and sends 99 chat messages. *)
Definition chatty : list Event :=
  frame "L1" "m0" H (CreateLobby "A" None)
  :: replicate 99 (frame "c" "c" H (SendChatMessage "hi")).

(** The lobby of [duo] as the store holds it. *)
Definition duo_lobby : Lobby.t :=
  Lobby.mk "L1" "A" "H" ["H"; "P"] 2 "ABCDEFGH" false 0
    [ChatMessage.mk "m0" "System" "Lobby created! Welcome!" 0;
     ChatMessage.mk "m1" "System" "Player joined the lobby" 0].

Definition solo_lobby : Lobby.t :=
  Lobby.mk "L1" "A" "H" ["H"] 2 "ABCDEFGH" false 0
    [ChatMessage.mk "m0" "System" "Lobby created! Welcome!" 0].
End Scenario.

(** ** Vocabulary of further properties *)

(** A stored lobby is filed under its own id, lists its host, and lists
    nobody twice. *)
Definition lobby_wf (lid : string) (lobby : Lobby.t) : Prop :=
  Lobby.id lobby = lid
  ∧ Lobby.hostId lobby ∈ Lobby.players lobby
  ∧ NoDup (Lobby.players lobby).

Definition lobbies_wf (st : State) : Prop := map_Forall lobby_wf (lobbies st).

(** A player record is filed under its own id and its level is truthy. *)
Definition player_wf (pid : string) (p : Player.t) : Prop :=
  Player.id p = pid ∧ Player.level p ≠ 0%Z.

Definition players_wf (st : State) : Prop := map_Forall player_wf (players st).

(** Payloads that disclose the password of a lobby: a full lobby
    object, a lobby view, or the password itself. *)
Definition confidential (data : Server.Payload) : Prop :=
  match data with
  | Server.DLobby _
  | Server.DPlayerJoined _ _
  | Server.DPlayerLeft _ _
  | Server.DLobbyDetails _
  | Server.DPassword _ => True
  | _ => False
  end.

(** The payload is, or is made from, this lobby as stored in [st]: the
    lobby object itself, its view with the member ids replaced by the
    records found for them, or its password. *)
Definition discloses (st : State) (data : Server.Payload) (lobby : Lobby.t) : Prop :=
  match data with
  | Server.DLobby object
  | Server.DPlayerJoined _ object
  | Server.DPlayerLeft _ object => object = lobby
  | Server.DLobbyDetails view =>
      view = mkView (Lobby.id lobby) (Lobby.title lobby) (Lobby.hostId lobby)
               (omap (λ pid, players st !! pid) (Lobby.players lobby))
               (Lobby.maxPlayers lobby) (Lobby.password lobby)
               (Lobby.isPrivate lobby) (Lobby.createdAt lobby)
               (Lobby.chatMessages lobby)
  | Server.DPassword password => password = Lobby.password lobby
  | _ => False
  end.

(** The sockets connected when an event is handled. *)
Definition clients_of (e : Server.Event) : list Server.Client :=
  match e with
  | Server.Message cs _ _ _ => cs
  | Server.Close cs _ _ => cs
  end.

(** The socket an event happens on. *)
Definition socket_of (e : Server.Event) : Server.Client :=
  match e with
  | Server.Message _ _ ws _ => ws
  | Server.Close _ _ ws => ws
  end.

(** The lobby the store holds after [Scenario.chatty]: its history has
    100 entries. *)
Definition chatty_lobby : Lobby.t :=
  Eval vm_compute in
    default Scenario.solo_lobby (lobbies (Server.run Scenario.chatty initial) !! "L1").

(** H opens lobby L1 and P opens lobby L2. *)
Definition two_hosts : list Server.Event :=
  [Scenario.frame "L1" "m0" Scenario.H (Server.CreateLobby "A" None);
   Scenario.frame "L2" "m1" Scenario.P (Server.CreateLobby "B" None)].

Definition first_of_two : Lobby.t :=
  Lobby.mk "L1" "A" "H" ["H"] 3 "ABCDEFGH" false 0
    [ChatMessage.mk "m0" "System" "Lobby created! Welcome!" 0].

(** ** The client service of [services/websocket.ts] *)

Module WebSocketService.

(** A registered handler. Handlers are compared by identity
    ([indexOf]), so a handler is the number that stands for its
    function object; what a handler does when called is not modelled,
    and handlers are taken not to call [on] or [off] themselves. *)
Definition Handler := nat.

Definition maxReconnectAttempts : nat := 5.

(** The fields of the service: [ws] is [None] for [null] and otherwise
    the [readyState] of the socket. *)
Record t := mk {
  ws : option Server.ReadyState;
  reconnectAttempts : nat;
  isConnecting : bool;
  eventHandlers : gmap string (list Handler)
}.

Definition set_eventHandlers (v : gmap string (list Handler)) (svc : t) : t :=
  mk (ws svc) (reconnectAttempts svc) (isConnecting svc) v.

(** [handlers.indexOf(handler)], [-1] when absent. *)
Fixpoint indexOf (handlers : list Handler) (handler : Handler) : Z :=
  match handlers with
  | [] => (-1)%Z
  | h :: rest =>
      if decide (h = handler) then 0%Z
      else
        let i := indexOf rest handler in
        if (i >? -1)%Z then (i + 1)%Z else (-1)%Z
  end.

(** [handlers.splice(index, 1)] for [index >= 0]. *)
Definition splice1 (handlers : list Handler) (index : Z) : list Handler :=
  take (Z.to_nat index) handlers ++ drop (S (Z.to_nat index)) handlers.

(** [attemptReconnect()]: the service, and whether a reconnect timer
    was set. *)
Definition attemptReconnect (svc : t) : t * bool :=
  if reconnectAttempts svc <? maxReconnectAttempts then
    (mk (ws svc) (S (reconnectAttempts svc)) (isConnecting svc) (eventHandlers svc),
     true)
  else (svc, false).

(** [handleMessage(message)]: the calls made, in order, each with
    [message.data]. *)
Definition handleMessage {A} (svc : t) (type : string) (data : A)
    : list (Handler * A) :=
  match eventHandlers svc !! type with
  | Some handlers => (λ handler, (handler, data)) <$> handlers
  | None => []
  end.

Definition on (eventType : string) (handler : Handler) (svc : t) : t :=
  let m :=
    match eventHandlers svc !! eventType with
    | Some _ => eventHandlers svc
    | None => <[eventType := []]> (eventHandlers svc)
    end in
  match m !! eventType with
  | Some handlers => set_eventHandlers (<[eventType := handlers ++ [handler]]> m) svc
  | None => set_eventHandlers m svc
  end.

(** [off(eventType, handler?)]; [None] is a call without handler. *)
Definition off (eventType : string) (handler : option Handler) (svc : t) : t :=
  match handler with
  | Some h =>
      match eventHandlers svc !! eventType with
      | Some handlers =>
          let index := indexOf handlers h in
          if (index >? -1)%Z then
            set_eventHandlers
              (<[eventType := splice1 handlers index]> (eventHandlers svc)) svc
          else svc
      | None => svc
      end
  | None => set_eventHandlers (delete eventType (eventHandlers svc)) svc
  end.

(** [send(type, data)]: the frames handed to the socket. *)
Definition send {A} (svc : t) (type : string) (data : A) : list (string * A) :=
  match ws svc with
  | Some Server.OPEN => [(type, data)]
  | _ => []
  end.

Definition disconnect (svc : t) : t :=
  mk None (reconnectAttempts svc) (isConnecting svc) ∅.

Definition isConnected (svc : t) : bool :=
  match ws svc with
  | Some Server.OPEN => true
  | _ => false
  end.

(** [n] calls of [attemptReconnect] in a row (the socket closing [n]
    times without opening in between): the service and the number of
    timers set. *)
Fixpoint retries (n : nat) (svc : t) : t * nat :=
  match n with
  | 0 => (svc, 0)
  | S n' =>
      let '(svc1, timer) := attemptReconnect svc in
      let '(svc2, timers) := retries n' svc1 in
      (svc2, (if timer then 1 else 0) + timers)
  end.

(** The handlers registered for a type, none when the type has no
    entry. *)
Definition registered (svc : t) (eventType : string) : list Handler :=
  default [] (eventHandlers svc !! eventType).

End WebSocketService.

(** * Properties *)

Import LobbyManager Server.

(** ** Records and maps *)

Lemma unsubscribeAll_lookup pids (subs : gmap string string) pid :
  unsubscribeAll pids subs !! pid = if decide (pid ∈ pids) then None else subs !! pid.
Proof.
  unfold unsubscribeAll. revert subs.
  induction pids as [|q pids IH]; intros subs; simpl.
  - destruct (decide (pid ∈ [])) as [Hin|_]; [by apply elem_of_nil in Hin | done].
  - rewrite IH, lookup_delete.
    destruct (decide (pid ∈ q :: pids)) as [Hc|Hc]; rewrite elem_of_cons in Hc.
    + destruct (decide (pid ∈ pids)); [done|].
      destruct Hc as [->|?]; [|done]. by rewrite decide_True.
    + destruct (decide (pid ∈ pids)); [tauto|].
      rewrite decide_False; [done|]. intros ->. tauto.
Qed.

(** Unfolds one manager method and splits on every test it makes. *)
Ltac run_method :=
  repeat match goal with
    | |- context [match ?x with _ => _ end] =>
        lazymatch x with
        | bool_decide _ => case_bool_decide
        | _ => destruct x eqn:?
        end
    | _ => progress simplify_eq/=
    end.

(** ** Chat history *)

Lemma slice_last_length {A} n (arr : list A) :
  length (slice_last n arr) = min n (length arr).
Proof. unfold slice_last. rewrite length_drop. lia. Qed.

Lemma slice_last_suffix {A} n (arr : list A) :
  take (length arr - n) arr ++ slice_last n arr = arr.
Proof. apply take_drop. Qed.

(** [addChatMessage] on a lobby the sender belongs to: the stored history
    is the last 100 entries of the old history followed by the new
    message, so entries fall off the front only. *)
Lemma addChatMessage_history d lid pid text lobby st :
  lobbies st !! lid = Some lobby →
  pid ∈ Lobby.players lobby →
  ∃ lobby' m,
    addChatMessage d (Some lid) pid text st
      = (mkState (<[lid := lobby']> (lobbies st)) (players st) (lobbySubscriptions st),
         Success m)
    ∧ Lobby.chatMessages lobby' = slice_last 100 (Lobby.chatMessages lobby ++ [m])
    ∧ length (Lobby.chatMessages lobby') ≤ 100
    ∧ ChatMessage.message m = trim text.
Proof.
  intros Hl Hin. unfold addChatMessage. simpl. rewrite Hl.
  rewrite bool_decide_eq_true_2 by done. simpl.
  eexists _, _. split; [reflexivity|].
  case_match eqn:Hlen; simpl.
  - rewrite slice_last_length. split_and!; [done | lia | done].
  - apply Nat.ltb_ge in Hlen. unfold slice_last.
    replace (length _ - 100) with 0 by lia. by rewrite drop_0.
Qed.

(** ** C7 *)

(** C7. When a lobby holds exactly [maxPlayers] members, [joinLobby] by
    any player returns the error [Lobby is full] and hands back the three
    maps untouched; the [join_lobby] handler then only answers the
    requester with that error. *)
Theorem C7_join_full_lobby_rejected cs d ws lid lobby st :
  lobbies st !! lid = Some lobby →
  Z.of_nat (length (Lobby.players lobby)) = Lobby.maxPlayers lobby →
  joinLobby d (Some lid) (playerId ws) st = (st, Failure "Lobby is full")
  ∧ onMessage cs d ws (JoinLobby (Some lid)) st
    = (st, sendToClient ws "error" (DError "Lobby is full")).
Proof.
  intros Hl Hfull.
  assert (Hj : joinLobby d (Some lid) (playerId ws) st = (st, Failure "Lobby is full")).
  { unfold joinLobby. simpl. rewrite Hl.
    destruct (Z.geb_spec (Z.of_nat (length (Lobby.players lobby)))
                (Lobby.maxPlayers lobby)); [done | lia]. }
  split; [done|]. unfold onMessage. by rewrite Hj.
Qed.

(** ** C9 *)

(** C9. Two successive [togglePrivacy] calls by the host both succeed,
    the second one reports the original [isPrivate], and the maps after
    the second call are the maps before the first. *)
Theorem C9_togglePrivacy_involution lid p lobby st :
  lobbies st !! lid = Some lobby →
  Lobby.hostId lobby = p →
  let r1 := togglePrivacy (Some lid) p st in
  let r2 := togglePrivacy (Some lid) p r1.1 in
  r1.2 = Success (negb (Lobby.isPrivate lobby))
  ∧ r2.2 = Success (Lobby.isPrivate lobby)
  ∧ Lobby.isPrivate <$> lobbies r2.1 !! lid = Some (Lobby.isPrivate lobby)
  ∧ r2.1 = st.
Proof.
  intros Hl Hhost. subst p. unfold togglePrivacy. simpl. rewrite Hl.
  rewrite bool_decide_eq_false_2 by (intros HH; by apply HH). simpl.
  rewrite lookup_insert_eq. simpl.
  rewrite bool_decide_eq_false_2 by (intros HH; by apply HH). simpl.
  rewrite negb_involutive, insert_insert_eq, lookup_insert_eq. simpl.
  split_and!; try done.
  destruct st as [ls ps ss]; simpl in *. f_equal.
  apply insert_id. rewrite Hl. f_equal. by destruct lobby.
Qed.

(** ** C8 *)

(** C8. A method call that returns a failure returns the three maps it
    was given; and on an existing lobby, [delistLobby],
    [regeneratePassword] and [togglePrivacy] called by anyone but the
    host fail with their [Only host can ...] error and change nothing. *)
Theorem C8_failure_changes_nothing d st :
  (∀ c e, (call d c st).2 = Some e → (call d c st).1 = st)
  ∧ (∀ lid lobby p,
       lobbies st !! lid = Some lobby →
       Lobby.hostId lobby ≠ p →
       delistLobby (Some lid) p st = (st, Failure "Only host can delist lobby")
       ∧ regeneratePassword d (Some lid) p st
         = (st, Failure "Only host can regenerate password")
       ∧ togglePrivacy (Some lid) p st = (st, Failure "Only host can change privacy")).
Proof.
  split.
  - intros c e. destruct c; simpl; try done;
      unfold joinLobby, leaveLobby, delistLobby, addChatMessage,
             regeneratePassword, togglePrivacy;
      run_method; done.
  - intros lid lobby p Hl Hne.
    unfold delistLobby, regeneratePassword, togglePrivacy. simpl. rewrite Hl.
    by rewrite bool_decide_eq_true_2.
Qed.

(** ** C6 *)

(** C6. The host of a lobby leaves it: the subscription index sends
    [leaveLobby] to that lobby, whose id, a uuid, is a non-empty string.
    If nobody else is a member, the lobby is removed from the store, the
    leaver's subscription is removed and the result is [lobbyDeleted].
    Otherwise the lobby is stored again with the first of the remaining
    members, in member-list order, as host, the leaver taken off the
    member list, and two entries appended to the unchanged chat history:
    the system message that the leaver left and then the system message
    [<name> is now the host], where the name is the registered name of
    the new host, or [Player] when it has none. Nothing else changes. *)
Theorem C6_host_leaves d p lid lobby st :
  lobbySubscriptions st !! p = Some lid →
  truthy lid = true →
  lobbies st !! lid = Some lobby →
  Lobby.hostId lobby = p →
  let remaining := filter (λ id, id ≠ p) (Lobby.players lobby) in
  let r := leaveLobby d p st in
  let shown pid :=
    match players st !! pid with
    | Some record =>
        match Player.name record with
        | EmptyString => "Player"
        | name => name
        end
    | None => "Player"
    end in
  ((∀ q, q ∈ Lobby.players lobby → q = p) →
     r = (mkState (delete lid (lobbies st)) (players st)
                  (delete p (lobbySubscriptions st)),
          Success LobbyDeleted))
  ∧ (∀ q rest, remaining = q :: rest →
       let promoted :=
         Lobby.mk (Lobby.id lobby) (Lobby.title lobby) q (q :: rest)
           (Lobby.maxPlayers lobby) (Lobby.password lobby)
           (Lobby.isPrivate lobby) (Lobby.createdAt lobby)
           (Lobby.chatMessages lobby
            ++ [ChatMessage.mk (uuid1 d) "System"
                  (shown p +:+ " left the lobby") (now1 d);
                ChatMessage.mk (uuid2 d) "System"
                  (shown q +:+ " is now the host") (now2 d)]) in
       r = (mkState (<[lid := promoted]> (lobbies st)) (players st)
                    (delete p (lobbySubscriptions st)),
            Success (StillOpen promoted))).
Proof.
  intros Hsub Htruthy Hl Hhost remaining r shown. subst r remaining.
  assert (Hshown : ∀ pid, nameOf st pid "Player" = shown pid).
  { intros pid. unfold nameOf, shown, or_else.
    destruct (players st !! pid) as [[? [|] ?]|]; done. }
  unfold leaveLobby. rewrite Hsub, Htruthy, Hl. simpl.
  rewrite bool_decide_eq_true_2 by done.
  split.
  - intros Hsole.
    assert (Hnil : filter (λ id, id ≠ p) (Lobby.players lobby) = []).
    { destruct (filter (λ id, id ≠ p) (Lobby.players lobby)) as [|q ?] eqn:Hf; [done|].
      assert (Hq : q ∈ filter (λ id, id ≠ p) (Lobby.players lobby))
        by (rewrite Hf; left).
      apply list_elem_of_filter in Hq as [Hne Hq]. by apply Hsole in Hq. }
    by rewrite Hnil.
  - intros q rest Hrem. rewrite Hrem. simpl.
    unfold Lobby.push_chat, Lobby.set_hostId, Lobby.set_chatMessages,
           Lobby.set_players, systemMessage. simpl.
    rewrite !Hshown, <- app_assoc. done.
Qed.

(** ** C10 *)

Lemma filter_Boolean_elem {A} (arr : list (option A)) x :
  x ∈ filter_Boolean arr ↔ Some x ∈ arr.
Proof.
  induction arr as [|[y|] arr IH]; simpl.
  - by rewrite !elem_of_nil.
  - rewrite !elem_of_cons, IH. naive_solver.
  - rewrite elem_of_cons, IH. naive_solver.
Qed.

Lemma resolvePlayers_elem st ids r :
  r ∈ resolvePlayers st ids ↔ ∃ pid, pid ∈ ids ∧ players st !! pid = Some r.
Proof.
  unfold resolvePlayers. rewrite filter_Boolean_elem, list_elem_of_fmap.
  naive_solver.
Qed.

Lemma resolvePlayers_length st ids :
  length (resolvePlayers st ids) + length (unregistered st ids) = length ids.
Proof.
  unfold resolvePlayers, unregistered.
  induction ids as [|pid ids IH]; [done|].
  rewrite filter_cons. simpl.
  destruct (players st !! pid) eqn:Hp.
  - rewrite decide_False by done. simpl. f_equal. exact IH.
  - rewrite decide_True by done. simpl. rewrite Nat.add_succ_r. f_equal. exact IH.
Qed.

Lemma getPublicLobbies_elem st s :
  s ∈ getPublicLobbies st
  ↔ ∃ lid lobby, lobbies st !! lid = Some lobby
                 ∧ Lobby.isPrivate lobby = false ∧ s = summary st lobby.
Proof.
  unfold getPublicLobbies, lobby_values. rewrite list_elem_of_fmap. split.
  - intros (lobby & -> & Hin). apply list_elem_of_filter in Hin as [Hpub Hin].
    apply list_elem_of_fmap in Hin as ([lid lobby'] & -> & Hin).
    apply elem_of_map_to_list in Hin. by exists lid, lobby'.
  - intros (lid & lobby & Hl & Hpub & ->). exists lobby. split; [done|].
    apply list_elem_of_filter. split; [done|].
    apply list_elem_of_fmap. exists (lid, lobby). split; [done|].
    by apply elem_of_map_to_list.
Qed.

Lemma resolvePlayers_omap st ids :
  resolvePlayers st ids = omap (λ pid, players st !! pid) ids.
Proof.
  unfold resolvePlayers. induction ids as [|pid ids IH]; [done|]. simpl.
  destruct (players st !! pid); simpl; [f_equal|]; exact IH.
Qed.

(** C10. Every entry of the public list is the summary of a stored
    public lobby (and each stored public lobby has its entry), and every
    view [getLobbyDetails] returns is the view of the stored lobby asked
    for, returned to one of its members only (and each member gets it).
    In both, the player list holds, in member order, the records found
    in [players] for the member ids and nothing for the ids without
    record: its length is the member count minus the number of members
    without record, strictly less as soon as one member has none. *)
Theorem C10_unregistered_members_dropped st :
  let found ids := omap (λ pid, players st !! pid) ids in
  (∀ s, s ∈ getPublicLobbies st
        ↔ ∃ lid lobby,
            lobbies st !! lid = Some lobby
            ∧ Lobby.isPrivate lobby = false
            ∧ s = mkSummary (Lobby.id lobby) (Lobby.title lobby)
                    (found (Lobby.players lobby))
                    (Lobby.maxPlayers lobby) (Lobby.createdAt lobby))
  ∧ (∀ lobbyId p view,
       getLobbyDetails lobbyId p st = Success view
       ↔ ∃ lid lobby,
           lobbyId = Some lid
           ∧ lobbies st !! lid = Some lobby
           ∧ p ∈ Lobby.players lobby
           ∧ view = mkView (Lobby.id lobby) (Lobby.title lobby)
                      (Lobby.hostId lobby) (found (Lobby.players lobby))
                      (Lobby.maxPlayers lobby) (Lobby.password lobby)
                      (Lobby.isPrivate lobby) (Lobby.createdAt lobby)
                      (Lobby.chatMessages lobby))
  ∧ (∀ ids,
       (∀ r, r ∈ found ids ↔ ∃ pid, pid ∈ ids ∧ players st !! pid = Some r)
       ∧ length (found ids)
         + length (filter (λ pid, players st !! pid = None) ids)
         = length ids
       ∧ (∀ pid, pid ∈ ids → players st !! pid = None →
            length (found ids) < length ids)).
Proof.
  intros found. subst found. split_and!.
  - intros s. rewrite getPublicLobbies_elem. unfold summary.
    by setoid_rewrite resolvePlayers_omap.
  - intros lobbyId p view. unfold getLobbyDetails, viewOf. split.
    + destruct lobbyId as [lid|]; [|done]. simpl.
      destruct (lobbies st !! lid) as [lobby|] eqn:Hl; [|done].
      case_bool_decide; simpl; [|done]. intros [= <-].
      rewrite resolvePlayers_omap. by exists lid, lobby.
    + intros (lid & lobby & -> & Hl & Hp & ->). simpl. rewrite Hl.
      rewrite bool_decide_eq_true_2 by done. simpl.
      by rewrite resolvePlayers_omap.
  - intros ids. rewrite <- resolvePlayers_omap. split_and!.
    + apply resolvePlayers_elem.
    + apply resolvePlayers_length.
    + intros pid Hin Hnone.
      pose proof (resolvePlayers_length st ids) as Hlen.
      assert (Hu : pid ∈ unregistered st ids) by by apply list_elem_of_filter.
      unfold unregistered in *.
      destruct (filter _ ids); [by apply elem_of_nil in Hu|].
      simpl in Hlen. lia.
Qed.

(** ** What the handlers do to the maps *)

Lemma onMessage_state cs d ws msg st :
  (onMessage cs d ws msg st).1 = afterMessage d (playerId ws) msg st.
Proof.
  destruct msg; simpl; try done;
    repeat match goal with
      | |- context [let '(_, _) := ?x in _] => destruct x as [? []]
      | |- context [match ?x with Success _ => _ | Failure _ => _ end] => destruct x
      end; done.
Qed.

Lemma onClose_state cs d ws st :
  (onClose cs d ws st).1 = forget (playerId ws) (leaveLobby d (playerId ws) st).1.
Proof. unfold onClose. by destruct (leaveLobby d (playerId ws) st). Qed.

(** An invariant of the initial maps that every handler keeps, for the
    events allowed by [ok], holds in every reachable state. *)
Lemma Reachable_ind_inv (ok : State → Event → Prop) (I : State → Prop) :
  I initial →
  (∀ d me msg st cs ws,
     me = playerId ws → ok st (Message cs d ws msg) → I st → I (afterMessage d me msg st)) →
  (∀ d me st cs ws,
     me = playerId ws → ok st (Close cs d ws) → I st → I (forget me (leaveLobby d me st).1)) →
  ∀ st, Reachable ok st → I st.
Proof.
  intros Hinit Hmsg Hclose st Hreach.
  induction Hreach as [|st e _ IH Hok]; [done|].
  destruct e as [cs d ws msg|cs d ws]; simpl.
  - rewrite onMessage_state. by eapply Hmsg.
  - rewrite onClose_state. by eapply Hclose.
Qed.

(** ** C1 *)

Lemma joinLobby_capacity d lobbyId p st :
  capacity_respected st → capacity_respected (joinLobby d lobbyId p st).1.
Proof.
  intros Hcap. unfold joinLobby.
  destruct lobbyId as [lid|]; [|done]. simpl.
  destruct (lobbies st !! lid) as [lobby|] eqn:Hl; [|done].
  destruct (Z.geb_spec (Z.of_nat (length (Lobby.players lobby)))
              (Lobby.maxPlayers lobby)) as [|Hroom]; [done|].
  case_bool_decide; [done|]. simpl.
  apply map_Forall_insert_2; [|done].
  unfold within_capacity. simpl. rewrite length_app. simpl. lia.
Qed.

Lemma leaveLobby_capacity d p st :
  capacity_respected st → capacity_respected (leaveLobby d p st).1.
Proof.
  intros Hcap. unfold leaveLobby.
  destruct (lobbySubscriptions st !! p) as [lid|]; [|done].
  destruct (truthy lid); [|done]. simpl.
  destruct (lobbies st !! lid) as [lobby|] eqn:Hl; [|done].
  pose proof (Hcap _ _ Hl) as Hlobby. unfold within_capacity in Hlobby.
  pose proof (length_filter (λ id, id ≠ p) (Lobby.players lobby)) as Hlen.
  case_bool_decide.
  - destruct (filter _ _) as [|q rest] eqn:Hf; simpl.
    + by apply map_Forall_delete.
    + apply map_Forall_insert_2; [|done].
      unfold within_capacity. simpl in *. lia.
  - simpl. apply map_Forall_insert_2; [|done].
    unfold within_capacity. simpl. lia.
Qed.

(** Methods that put a lobby back with the same members and capacity. *)
Lemma capacity_reinsert lid lobby lobby' st ps ss :
  capacity_respected st →
  lobbies st !! lid = Some lobby →
  Lobby.players lobby' = Lobby.players lobby →
  Lobby.maxPlayers lobby' = Lobby.maxPlayers lobby →
  capacity_respected (mkState (<[lid := lobby']> (lobbies st)) ps ss).
Proof.
  intros Hcap Hl Hp Hm. apply map_Forall_insert_2; [|done].
  unfold within_capacity. rewrite Hp, Hm. by apply (Hcap lid).
Qed.

Lemma afterMessage_capacity d me msg st cs ws :
  room_for_host st (Message cs d ws msg) →
  capacity_respected st → capacity_respected (afterMessage d me msg st).
Proof.
  intros Hok Hcap. destruct msg; simpl; try done.
  - apply map_Forall_insert_2; [|done].
    unfold within_capacity. simpl in *. destruct maxPlayers; simpl; lia.
  - by apply joinLobby_capacity.
  - by apply leaveLobby_capacity.
  - unfold delistLobby. destruct (lobbySubscriptions st !! me) as [lid|]; [|done].
    simpl. destruct (lobbies st !! lid); [|done].
    case_bool_decide; [done|]. by apply map_Forall_delete.
  - unfold addChatMessage. destruct (lobbySubscriptions st !! me) as [lid|]; [|done].
    simpl. destruct (lobbies st !! lid) as [lobby|] eqn:Hl; [|done].
    case_bool_decide; simpl; [|done].
    eapply capacity_reinsert; [done..| |]; by case_match.
  - unfold regeneratePassword. destruct (lobbySubscriptions st !! me) as [lid|]; [|done].
    simpl. destruct (lobbies st !! lid) as [lobby|] eqn:Hl; [|done].
    case_bool_decide; [done|]. by eapply capacity_reinsert.
  - unfold togglePrivacy. destruct (lobbySubscriptions st !! me) as [lid|]; [|done].
    simpl. destruct (lobbies st !! lid) as [lobby|] eqn:Hl; [|done].
    case_bool_decide; [done|]. by eapply capacity_reinsert.
Qed.

(** C1 (as amended). In every state reached through events whose
    [create_lobby] frames leave [maxPlayers] out or give an integer of at
    least 1, every lobby of the store has at most [maxPlayers] members. *)
Theorem C1_capacity_invariant st :
  Reachable room_for_host st → capacity_respected st.
Proof.
  apply Reachable_ind_inv.
  - apply map_Forall_empty.
  - intros. by eapply afterMessage_capacity.
  - intros d me st' cs ws _ _ Hcap. by apply leaveLobby_capacity.
Qed.

(** ** C2 *)

Lemma subscriptions_exact_consistent st :
  subscriptions_exact st → membership_consistent st.
Proof.
  intros [Hex _]. split.
  - intros pid a b la lb Ha Hb Hina Hinb.
    assert (lobbySubscriptions st !! pid = Some a) as Hsa by (apply Hex; eauto).
    assert (lobbySubscriptions st !! pid = Some b) as Hsb by (apply Hex; eauto).
    congruence.
  - intros pid. split.
    + intros [lid Hs]. apply Hex in Hs as (lobby & ? & ?). eauto.
    + intros (lid & lobby & Hl & Hin). exists lid. apply Hex. eauto.
Qed.

Section exact.
Variable st : State.
Hypothesis Hexact : subscriptions_exact st.

Lemma subscribed_member pid lid :
  lobbySubscriptions st !! pid = Some lid →
  ∃ lobby, lobbies st !! lid = Some lobby ∧ pid ∈ Lobby.players lobby.
Proof. apply Hexact. Qed.

Lemma member_subscribed pid lid lobby :
  lobbies st !! lid = Some lobby → pid ∈ Lobby.players lobby →
  lobbySubscriptions st !! pid = Some lid.
Proof. intros. apply Hexact. eauto. Qed.

Lemma createLobby_exact d title me maxPlayers :
  lobbies st !! uuid1 d = None → truthy (uuid1 d) = true →
  lobbySubscriptions st !! me = None →
  subscriptions_exact (createLobby d title me maxPlayers st).1.
Proof.
  intros Hfresh Htruthy Hout. split; simpl.
  - intros pid lid. rewrite !lookup_insert.
    destruct (decide (me = pid)) as [->|Hp], (decide (uuid1 d = lid)) as [<-|Hl].
    + split; [|done]. intros _. eexists. split; [done|]. simpl. by left.
    + split; [congruence|]. intros (lobby & Hlobby & Hin).
      pose proof (member_subscribed _ _ _ Hlobby Hin). congruence.
    + split.
      * intros Hs. apply subscribed_member in Hs as (? & ? & ?). congruence.
      * intros (lobby & [= <-] & Hin). simpl in Hin.
        apply list_elem_of_singleton in Hin. congruence.
    + apply Hexact.
  - intros lid lobby. rewrite lookup_insert. case_decide as Hk.
    + intros _. by subst.
    + apply Hexact.
Qed.

Lemma joinLobby_exact d lobbyId me :
  lobbySubscriptions st !! me = None →
  subscriptions_exact (joinLobby d lobbyId me st).1.
Proof.
  intros Hout. unfold joinLobby.
  destruct lobbyId as [lid0|]; [|done]. simpl.
  destruct (lobbies st !! lid0) as [lobby0|] eqn:Hl0; [|done].
  case_match; [done|]. case_bool_decide as Hnew; [done|].
  split; simpl.
  - intros pid lid. rewrite !lookup_insert.
    destruct (decide (me = pid)) as [->|Hp], (decide (lid0 = lid)) as [<-|Hl].
    + split; [|done]. intros _. eexists. split; [done|]. simpl.
      apply elem_of_app. right. by left.
    + split; [congruence|]. intros (lobby & Hlobby & Hin).
      pose proof (member_subscribed _ _ _ Hlobby Hin). congruence.
    + split.
      * intros Hs. apply subscribed_member in Hs as (lobby & Hlobby & Hin).
        eexists. split; [done|]. simpl. apply elem_of_app. left. congruence.
      * intros (lobby & [= <-] & Hin). simpl in Hin.
        apply elem_of_app in Hin as [Hin|Hin].
        -- by eapply member_subscribed.
        -- apply list_elem_of_singleton in Hin. congruence.
    + apply Hexact.
  - intros lid lobby. rewrite lookup_insert. case_decide as Hk.
    + intros _. subst. by eapply (proj2 Hexact).
    + apply Hexact.
Qed.

(** After [p] left [lid0], the subscriptions without [p] are exact
    again, whether the lobby is put back with its remaining members
    or, being empty, removed. *)
Lemma leave_exact p lid0 lobby0 (next : option Lobby.t) :
  lobbies st !! lid0 = Some lobby0 →
  p ∈ Lobby.players lobby0 →
  match next with
  | Some lobby' =>
      Lobby.players lobby' = filter (λ id, id ≠ p) (Lobby.players lobby0)
  | None => filter (λ id, id ≠ p) (Lobby.players lobby0) = []
  end →
  subscriptions_exact
    (mkState (match next with
              | Some lobby' => <[lid0 := lobby']> (lobbies st)
              | None => delete lid0 (lobbies st)
              end)
             (players st) (delete p (lobbySubscriptions st))).
Proof.
  intros Hl0 Hin0 Hnext.
  pose proof (member_subscribed _ _ _ Hl0 Hin0) as Hsub0.
  split; simpl.
  - intros pid lid. rewrite lookup_delete.
    destruct (decide (p = pid)) as [<-|Hp].
    + split; [done|]. intros (lobby & Hlobby & Hin). exfalso.
      destruct next as [lobby'|].
      * rewrite lookup_insert in Hlobby. case_decide; simplify_eq.
        -- rewrite Hnext in Hin. by apply list_elem_of_filter in Hin as [? _].
        -- pose proof (member_subscribed _ _ _ Hlobby Hin). congruence.
      * rewrite lookup_delete in Hlobby. case_decide; simplify_eq.
        pose proof (member_subscribed _ _ _ Hlobby Hin). congruence.
    + assert (Hkeep : pid ∈ filter (λ id, id ≠ p) (Lobby.players lobby0)
                      ↔ pid ∈ Lobby.players lobby0).
      { rewrite list_elem_of_filter. naive_solver. }
      destruct next as [lobby'|].
      * rewrite lookup_insert. case_decide; subst.
        -- split.
           ++ intros Hs. apply subscribed_member in Hs as (lobby & ? & ?).
              eexists. split; [done|]. rewrite Hnext. apply Hkeep. congruence.
           ++ intros (lobby & [= <-] & Hin). rewrite Hnext in Hin.
              eapply member_subscribed; [done|]. by apply Hkeep.
        -- apply Hexact.
      * rewrite lookup_delete. case_decide; subst.
        -- split; [|by intros (? & ? & ?)].
           intros Hs. apply subscribed_member in Hs as (lobby & ? & Hin).
           simplify_eq. apply Hkeep in Hin. rewrite Hnext in Hin.
           by apply elem_of_nil in Hin.
        -- apply Hexact.
  - intros lid lobby Hlobby. destruct next.
    + rewrite lookup_insert in Hlobby. case_decide; subst.
      * by eapply (proj2 Hexact).
      * by eapply (proj2 Hexact).
    + rewrite lookup_delete in Hlobby. case_decide; [done|].
      by eapply (proj2 Hexact).
Qed.

Lemma leaveLobby_exact d p : subscriptions_exact (leaveLobby d p st).1.
Proof.
  unfold leaveLobby.
  destruct (lobbySubscriptions st !! p) as [lid0|] eqn:Hsub; [|done].
  destruct (truthy lid0); [|done]. simpl.
  destruct (subscribed_member _ _ Hsub) as (lobby0 & Hl0 & Hin0). rewrite Hl0.
  case_bool_decide.
  - destruct (filter _ _) as [|q rest] eqn:Hf; simpl.
    + by apply (leave_exact p lid0 lobby0 None).
    + by apply (leave_exact p lid0 lobby0 (Some _)).
  - simpl. by apply (leave_exact p lid0 lobby0 (Some _)).
Qed.

Lemma delistLobby_exact me :
  subscriptions_exact (delistLobby (lobbySubscriptions st !! me) me st).1.
Proof.
  unfold delistLobby.
  destruct (lobbySubscriptions st !! me) as [lid0|] eqn:Hsub; [|done]. simpl.
  destruct (lobbies st !! lid0) as [lobby0|] eqn:Hl0; [|done].
  case_bool_decide; [done|]. split; simpl.
  - intros pid lid. rewrite unsubscribeAll_lookup, lookup_delete.
    destruct (decide (pid ∈ Lobby.players lobby0)) as [Hin|Hout].
    + pose proof (member_subscribed _ _ _ Hl0 Hin) as Hs.
      split; [done|]. intros (lobby & Hlobby & Hin'). case_decide; [done|].
      pose proof (member_subscribed _ _ _ Hlobby Hin'). congruence.
    + case_decide; subst.
      * split; [|by intros (? & ? & ?)].
        intros Hs. apply subscribed_member in Hs as (lobby & ? & ?). congruence.
      * apply Hexact.
  - intros lid lobby. rewrite lookup_delete. case_decide; [done|]. apply Hexact.
Qed.

(** Methods that put a lobby back with the same members. *)
Lemma reinsert_exact lid0 lobby0 lobby' :
  lobbies st !! lid0 = Some lobby0 →
  Lobby.players lobby' = Lobby.players lobby0 →
  subscriptions_exact
    (mkState (<[lid0 := lobby']> (lobbies st)) (players st) (lobbySubscriptions st)).
Proof.
  intros Hl0 Hsame. split; simpl.
  - intros pid lid. rewrite lookup_insert. case_decide; subst.
    + rewrite (proj1 Hexact). split.
      * intros (lobby & ? & ?). eexists. split; [done|]. congruence.
      * intros (lobby & [= <-] & ?). eexists. split; [done|]. congruence.
    + apply Hexact.
  - intros lid lobby. rewrite lookup_insert. case_decide; subst.
    + intros _. by eapply (proj2 Hexact).
    + apply Hexact.
Qed.

End exact.

Lemma forget_exact me st :
  lobbySubscriptions st !! me = None →
  subscriptions_exact st → subscriptions_exact (forget me st).
Proof.
  intros Hnone [Hex Hids]. split; simpl; [|done].
  intros pid lid. rewrite lookup_delete. case_decide; subst; [|done].
  rewrite <- Hex, Hnone. done.
Qed.

Lemma leaveLobby_unsubscribes d me st :
  subscriptions_exact st →
  lobbySubscriptions (leaveLobby d me st).1 !! me = None.
Proof.
  intros Hex. unfold leaveLobby.
  destruct (lobbySubscriptions st !! me) as [lid0|] eqn:Hsub; [|done].
  destruct (subscribed_member _ Hex _ _ Hsub) as (lobby0 & Hl0 & _).
  rewrite (proj2 Hex _ _ Hl0), Hl0. simpl.
  repeat case_match; simpl; apply lookup_delete_eq.
Qed.

Lemma afterMessage_exact d me msg st cs ws :
  me = playerId ws →
  joins_from_outside st (Message cs d ws msg) →
  subscriptions_exact st → subscriptions_exact (afterMessage d me msg st).
Proof.
  intros -> [Hfresh Hout] Hex. destruct msg; simpl in *; try done.
  - destruct Hfresh. by apply createLobby_exact.
  - by apply joinLobby_exact.
  - by apply leaveLobby_exact.
  - by apply delistLobby_exact.
  - unfold addChatMessage.
    destruct (lobbySubscriptions st !! playerId ws) as [lid|]; [|done].
    simpl. destruct (lobbies st !! lid) as [lobby|] eqn:Hl; [|done].
    case_bool_decide; simpl; [|done].
    eapply reinsert_exact; [done..|]. by case_match.
  - unfold regeneratePassword.
    destruct (lobbySubscriptions st !! playerId ws) as [lid|]; [|done].
    simpl. destruct (lobbies st !! lid) as [lobby|] eqn:Hl; [|done].
    case_bool_decide; [done|]. by eapply reinsert_exact.
  - unfold togglePrivacy.
    destruct (lobbySubscriptions st !! playerId ws) as [lid|]; [|done].
    simpl. destruct (lobbies st !! lid) as [lobby|] eqn:Hl; [|done].
    case_bool_decide; [done|]. by eapply reinsert_exact.
Qed.

(** C2 (as amended). In every state reached through events in which
    [create_lobby] and [join_lobby] frames come only from connections
    that hold no subscription (and [createLobby] is handed a fresh,
    non-empty uuid), no connection id is listed in two lobbies, and a
    connection id has a subscription exactly when some lobby lists it. *)
Theorem C2_membership_invariant st :
  Reachable joins_from_outside st → membership_consistent st.
Proof.
  intros Hreach. apply subscriptions_exact_consistent. revert st Hreach.
  apply Reachable_ind_inv.
  - split; simpl.
    + intros pid lid. rewrite lookup_empty. split; [done|].
      intros (? & Hl & _). by rewrite lookup_empty in Hl.
    + intros lid lobby Hl. by rewrite lookup_empty in Hl.
  - intros. by eapply afterMessage_exact.
  - intros d me st cs ws _ _ Hex. apply forget_exact.
    + by apply leaveLobby_unsubscribes.
    + by apply leaveLobby_exact.
Qed.

(** ** Reachability of concrete runs *)

Lemma Reachable_run ok es st :
  Reachable ok st → allowed ok es st → Reachable ok (run es st).
Proof.
  revert st. induction es as [|e es IH]; intros st Hst Hes; [done|].
  destruct Hes as [He Hes]. apply IH; [|done]. by constructor.
Qed.

Lemma duo_lobby_stored :
  lobbies (run Scenario.duo initial) !! "L1" = Some Scenario.duo_lobby.
Proof. vm_compute. reflexivity. Qed.

Lemma solo_lobby_stored :
  lobbies (run Scenario.solo initial) !! "L1" = Some Scenario.solo_lobby.
Proof. vm_compute. reflexivity. Qed.

(** ** C1: the claim as stated fails *)

(** C1 (as stated) is false: after one [create_lobby] frame with
    [maxPlayers: 0] the new lobby lists its host, one member more than
    its capacity. *)
Lemma C1_counterexample :
  ¬ (∀ st, Reachable any_event st → capacity_respected st).
Proof.
  intros Hall.
  assert (Hreach : Reachable any_event (run Scenario.no_room initial)).
  { apply Reachable_run; [constructor | by repeat split]. }
  apply Hall in Hreach.
  assert (Hl : lobbies (run Scenario.no_room initial) !! "L1"
               = Some (Lobby.mk "L1" "A" "H" ["H"] 0 "ABCDEFGH" false 0
                         [systemMessage "m0" "Lobby created! Welcome!" 0]))
    by (vm_compute; reflexivity).
  apply Hreach in Hl. unfold within_capacity in Hl. simpl in Hl. lia.
Qed.

Lemma C1_capacity_invariant_witness :
  Reachable room_for_host (run Scenario.duo initial)
  ∧ capacity_respected (run Scenario.duo initial).
Proof.
  assert (Hreach : Reachable room_for_host (run Scenario.duo initial)).
  { apply Reachable_run; [constructor | simpl; lia]. }
  split; [exact Hreach | exact (C1_capacity_invariant _ Hreach)].
Defined.

(** ** C2: the claim as stated fails *)

(** C2 (as stated) is false: a connection that sends [create_lobby]
    twice is listed in both lobbies (and subscribed to the second only). *)
Lemma C2_counterexample :
  ¬ (∀ st, Reachable fresh_lobby_id st → membership_consistent st).
Proof.
  intros Hall.
  assert (Hreach : Reachable fresh_lobby_id (run Scenario.two_lobbies initial)).
  { apply Reachable_run; [constructor|]. vm_compute. tauto. }
  apply Hall in Hreach as [Hone _].
  set (la := Lobby.mk "L1" "A" "H" ["H"] 3 "ABCDEFGH" false 0
               [systemMessage "m0" "Lobby created! Welcome!" 0]).
  set (lb := Lobby.mk "L2" "B" "H" ["H"] 3 "ABCDEFGH" false 0
               [systemMessage "m1" "Lobby created! Welcome!" 0]).
  assert (Ha : lobbies (run Scenario.two_lobbies initial) !! "L1" = Some la)
    by (vm_compute; reflexivity).
  assert (Hb : lobbies (run Scenario.two_lobbies initial) !! "L2" = Some lb)
    by (vm_compute; reflexivity).
  assert (Hin : "H" ∈ ["H"]) by left.
  discriminate (Hone "H" "L1" "L2" la lb Ha Hb Hin Hin).
Qed.

Lemma C2_membership_invariant_witness :
  Reachable joins_from_outside (run Scenario.duo initial)
  ∧ membership_consistent (run Scenario.duo initial).
Proof.
  assert (Hreach : Reachable joins_from_outside (run Scenario.duo initial)).
  { apply Reachable_run; [constructor|]. vm_compute. tauto. }
  split; [exact Hreach | exact (C2_membership_invariant _ Hreach)].
Defined.

(** ** C3: system messages are not capped *)

(** C3. [addChatMessage] caps the history, the system messages of
    [joinLobby] (and [leaveLobby]) do not: after [create_lobby] and 99
    chat messages the history holds 100 entries, and P joining makes it
    101. *)
Theorem C3_join_exceeds_chat_cap :
  (length ∘ Lobby.chatMessages) <$> lobbies (run Scenario.chatty initial) !! "L1"
  = Some 100
  ∧ (length ∘ Lobby.chatMessages)
      <$> lobbies (run (Scenario.chatty
                          ++ [Scenario.frame "j" "j" Scenario.P (JoinLobby (Some "L1"))])
                       initial) !! "L1"
    = Some 101.
Proof. split; vm_compute; reflexivity. Qed.

(** ** C4: nobody is told that a player left *)

(** The lookup the leave and close handlers hand to [broadcastToLobby]
    comes after [leaveLobby] removed the subscription. *)
Lemma leaveLobby_success_unsubscribes d me st outcome :
  (leaveLobby d me st).2 = Success outcome →
  lobbySubscriptions (leaveLobby d me st).1 !! me = None.
Proof.
  unfold leaveLobby. repeat case_match; simpl; try done;
    intros _; apply lookup_delete_eq.
Qed.

Lemma broadcastToLobby_undefined st cs type data exclude :
  broadcastToLobby st cs None type data exclude = [].
Proof. done. Qed.

Lemma sendToClient_types c type data s :
  s ∈ sendToClient c type data → Server.type s = type.
Proof.
  unfold sendToClient. destruct (isOpen c); intros Hs.
  - by apply list_elem_of_singleton in Hs as ->.
  - by apply elem_of_nil in Hs.
Qed.

Lemma broadcast_types cs type data s :
  s ∈ broadcast cs type data → Server.type s = type.
Proof.
  unfold broadcast. rewrite list_elem_of_bind. intros (c & Hs & _).
  by eapply sendToClient_types.
Qed.

(** Whatever the state and the sockets, the leave handler sends
    [lobby_left] and [lobbies_updated] only, and the close handler
    [lobbies_updated] only. *)
Lemma onMessage_leave_sends cs d ws st :
  (onMessage cs d ws LeaveLobby st).2
  = match (leaveLobby d (playerId ws) st).2 with
    | Success _ =>
        sendToClient ws "lobby_left" DEmpty
        ++ lobbiesUpdated (leaveLobby d (playerId ws) st).1 cs
    | Failure error => sendToClient ws "error" (DError error)
    end.
Proof.
  unfold onMessage.
  pose proof (leaveLobby_success_unsubscribes d (playerId ws) st) as Hnone.
  destruct (leaveLobby d (playerId ws) st) as [st1 [outcome|error]]; [|done].
  simpl in *. rewrite (Hnone outcome eq_refl). by destruct outcome.
Qed.

Lemma onClose_sends cs d ws st :
  (onClose cs d ws st).2
  = lobbiesUpdated (forget (playerId ws) (leaveLobby d (playerId ws) st).1) cs.
Proof.
  unfold onClose.
  pose proof (leaveLobby_success_unsubscribes d (playerId ws) st) as Hnone.
  destruct (leaveLobby d (playerId ws) st) as [st1 [outcome|error]]; [|done].
  simpl in *. rewrite (Hnone outcome eq_refl). by destruct outcome.
Qed.

Lemma leave_handlers_never_send_player_left cs d ws st s :
  s ∈ (onMessage cs d ws LeaveLobby st).2 ∨ s ∈ (onClose cs d ws st).2 →
  Server.type s ≠ "player_left".
Proof.
  rewrite onMessage_leave_sends, onClose_sends. unfold lobbiesUpdated.
  intros [Hs|Hs].
  - destruct (leaveLobby d (playerId ws) st).2.
    + apply elem_of_app in Hs as [Hs|Hs].
      * apply sendToClient_types in Hs. by rewrite Hs.
      * apply broadcast_types in Hs. by rewrite Hs.
    + apply sendToClient_types in Hs. by rewrite Hs.
  - apply broadcast_types in Hs. by rewrite Hs.
Qed.

(** C4. In the lobby of H and P, P sends [leave_lobby]: the lobby stays
    with H as its only member, P gets [lobby_left], everybody gets
    [lobbies_updated], and H gets no [player_left]; the same when P's
    socket closes instead. *)
Theorem C4_remaining_member_not_notified :
  let st := run Scenario.duo initial in
  let left := onMessage Scenario.everyone (Scenario.draws "m3" "m4")
                Scenario.P LeaveLobby st in
  let closed := onClose [Scenario.H; Scenario.Q] (Scenario.draws "m3" "m4")
                  Scenario.P st in
  Lobby.players <$> lobbies left.1 !! "L1" = Some ["H"]
  ∧ deliveries left.2
    = [("P", "lobby_left"); ("H", "lobbies_updated");
       ("P", "lobbies_updated"); ("Q", "lobbies_updated")]
  ∧ Lobby.players <$> lobbies closed.1 !! "L1" = Some ["H"]
  ∧ deliveries closed.2 = [("H", "lobbies_updated"); ("Q", "lobbies_updated")].
Proof. vm_compute. done. Qed.

(** ** C5: nobody is told that the lobby was delisted *)

(** Whatever the state and the sockets, a successful [delist_lobby]
    sends [lobbies_updated] only. *)
Lemma onMessage_delist_sends cs d ws st :
  (onMessage cs d ws DelistLobby st).2
  = match (delistLobby (lobbySubscriptions st !! playerId ws) (playerId ws) st).2 with
    | Success _ =>
        lobbiesUpdated
          (delistLobby (lobbySubscriptions st !! playerId ws) (playerId ws) st).1 cs
    | Failure error => sendToClient ws "error" (DError error)
    end.
Proof.
  unfold onMessage, delistLobby, broadcastToLobby.
  destruct (lobbySubscriptions st !! playerId ws) as [lid|]; [|done]. simpl.
  destruct (lobbies st !! lid); [|done].
  case_bool_decide; [done|]. simpl. by rewrite lookup_delete_eq.
Qed.

(** A successful [delistLobby] removes the lobby and the subscription of
    each of its members. *)
Lemma delistLobby_success lid me lobby st :
  lobbies st !! lid = Some lobby →
  Lobby.hostId lobby = me →
  let r := delistLobby (Some lid) me st in
  r.2 = Success ()
  ∧ lobbies r.1 !! lid = None
  ∧ ∀ pid, pid ∈ Lobby.players lobby → lobbySubscriptions r.1 !! pid = None.
Proof.
  intros Hl Hhost. unfold delistLobby. simpl. rewrite Hl.
  rewrite bool_decide_eq_false_2 by (intros Hne; by apply Hne). simpl.
  split_and!; [done | apply lookup_delete_eq |].
  intros pid Hin. rewrite unsubscribeAll_lookup. by rewrite decide_True.
Qed.

(** C5. In the lobby of H and P, the host H sends [delist_lobby]: the
    lobby is removed and both subscriptions are cleared, but the only
    envelopes sent are [lobbies_updated]; no [lobby_delisted] goes out,
    because [broadcastToLobby] looks the lobby up after its removal. *)
Theorem C5_delist_sends_no_lobby_delisted :
  let st := run Scenario.duo initial in
  let delisted := onMessage Scenario.everyone (Scenario.draws "m3" "m4")
                    Scenario.H DelistLobby st in
  lobbies delisted.1 !! "L1" = None
  ∧ lobbySubscriptions delisted.1 !! "H" = None
  ∧ lobbySubscriptions delisted.1 !! "P" = None
  ∧ deliveries delisted.2
    = [("H", "lobbies_updated"); ("P", "lobbies_updated"); ("Q", "lobbies_updated")].
Proof. vm_compute. done. Qed.

(** ** Instances on the concrete runs *)

Lemma named_duo_lobby_stored :
  lobbies (run Scenario.named_duo initial) !! "L1" = Some Scenario.duo_lobby.
Proof. vm_compute. reflexivity. Qed.

Lemma C6_host_leaves_witness :
  let d := Scenario.draws "m3" "m4" in
  let promoted :=
    Lobby.mk "L1" "A" "P" ["P"] 2 "ABCDEFGH" false 0
      [ChatMessage.mk "m0" "System" "Lobby created! Welcome!" 0;
       ChatMessage.mk "m1" "System" "Player joined the lobby" 0;
       ChatMessage.mk "m3" "System" "Hank left the lobby" 0;
       ChatMessage.mk "m4" "System" "Player is now the host" 0] in
  leaveLobby d "H" (run Scenario.solo initial)
  = (mkState (delete "L1" (lobbies (run Scenario.solo initial)))
             (players (run Scenario.solo initial))
             (delete "H" (lobbySubscriptions (run Scenario.solo initial))),
     Success LobbyDeleted)
  ∧ leaveLobby d "H" (run Scenario.named_duo initial)
    = (mkState (<["L1" := promoted]> (lobbies (run Scenario.named_duo initial)))
               (players (run Scenario.named_duo initial))
               (delete "H" (lobbySubscriptions (run Scenario.named_duo initial))),
       Success (StillOpen promoted)).
Proof.
  intros d promoted. split.
  - apply (C6_host_leaves d "H" "L1" Scenario.solo_lobby (run Scenario.solo initial));
      [vm_compute; reflexivity | reflexivity | exact solo_lobby_stored | reflexivity |].
    intros q Hq. by apply list_elem_of_singleton in Hq.
  - apply (C6_host_leaves d "H" "L1" Scenario.duo_lobby (run Scenario.named_duo initial)
             (ltac:(vm_compute; reflexivity)) eq_refl named_duo_lobby_stored eq_refl).
    reflexivity.
Defined.

Lemma C7_join_full_lobby_rejected_witness :
  let st := run Scenario.duo initial in
  let d := Scenario.draws "m3" "m4" in
  joinLobby d (Some "L1") "Q" st = (st, Failure "Lobby is full")
  ∧ onMessage Scenario.everyone d Scenario.Q (JoinLobby (Some "L1")) st
    = (st, sendToClient Scenario.Q "error" (DError "Lobby is full")).
Proof.
  intros st d.
  apply (C7_join_full_lobby_rejected Scenario.everyone d Scenario.Q "L1"
           Scenario.duo_lobby st);
    [exact duo_lobby_stored | reflexivity].
Defined.

Lemma C8_failure_changes_nothing_witness :
  let st := run Scenario.duo initial in
  let d := Scenario.draws "m3" "m4" in
  (call d (CallJoin (Some "L1") "Q") st).1 = st
  ∧ (call d (CallChat (Some "L1") "Q" "hi") st).1 = st
  ∧ delistLobby (Some "L1") "P" st = (st, Failure "Only host can delist lobby")
  ∧ regeneratePassword d (Some "L1") "P" st
    = (st, Failure "Only host can regenerate password")
  ∧ togglePrivacy (Some "L1") "P" st = (st, Failure "Only host can change privacy").
Proof.
  intros st d. destruct (C8_failure_changes_nothing d st) as [Hfail Hhost].
  split; [|split].
  - apply (Hfail (CallJoin (Some "L1") "Q") "Lobby is full").
    vm_compute. reflexivity.
  - apply (Hfail (CallChat (Some "L1") "Q" "hi") "Not in this lobby").
    vm_compute. reflexivity.
  - apply (Hhost "L1" Scenario.duo_lobby "P"); [exact duo_lobby_stored | discriminate].
Defined.

Lemma C9_togglePrivacy_involution_witness :
  let st := run Scenario.duo initial in
  let r1 := togglePrivacy (Some "L1") "H" st in
  let r2 := togglePrivacy (Some "L1") "H" r1.1 in
  r1.2 = Success true
  ∧ r2.2 = Success false
  ∧ Lobby.isPrivate <$> lobbies r2.1 !! "L1" = Some false
  ∧ r2.1 = st.
Proof.
  exact (C9_togglePrivacy_involution "L1" "H" Scenario.duo_lobby
           (run Scenario.duo initial) duo_lobby_stored eq_refl).
Defined.

Lemma C10_unregistered_members_dropped_witness :
  let st := run Scenario.named_duo initial in
  let hank := Player.mk "H" "Hank" 1 in
  mkSummary "L1" "A" [hank] 2 0 ∈ getPublicLobbies st
  ∧ getLobbyDetails (Some "L1") "P" st
    = Success (mkView "L1" "A" "H" [hank] 2 "ABCDEFGH" false 0
                 (Lobby.chatMessages Scenario.duo_lobby))
  ∧ length (omap (λ pid, players st !! pid) ["H"; "P"]) < 2.
Proof.
  intros st hank.
  pose proof (C10_unregistered_members_dropped st) as (Hpub & Hdet & Hfound).
  split_and!.
  - apply Hpub. exists "L1", Scenario.duo_lobby.
    split_and!; [exact named_duo_lobby_stored | reflexivity | vm_compute; reflexivity].
  - apply Hdet. exists "L1", Scenario.duo_lobby.
    split_and!; [reflexivity | exact named_duo_lobby_stored | right; left
                | vm_compute; reflexivity].
  - destruct (Hfound ["H"; "P"]) as (_ & _ & Hshort).
    apply (Hshort "P"); [right; left | vm_compute; reflexivity].
Defined.

(** * Further properties of the server *)

(** ** Shape of the stored lobbies and player records *)

Lemma wf_reinsert lid lobby lobby' st ps ss :
  lobbies_wf st →
  lobbies st !! lid = Some lobby →
  Lobby.id lobby' = Lobby.id lobby →
  Lobby.hostId lobby' = Lobby.hostId lobby →
  Lobby.players lobby' = Lobby.players lobby →
  lobbies_wf (mkState (<[lid := lobby']> (lobbies st)) ps ss).
Proof.
  intros Hwf Hl Hid Hhost Hp. apply map_Forall_insert_2; [|done].
  unfold lobby_wf. rewrite Hid, Hhost, Hp. by apply (Hwf lid).
Qed.

Lemma joinLobby_wf d lobbyId p st :
  lobbies_wf st → lobbies_wf (joinLobby d lobbyId p st).1.
Proof.
  intros Hwf. unfold joinLobby.
  destruct lobbyId as [lid|]; [|done]. simpl.
  destruct (lobbies st !! lid) as [lobby|] eqn:Hl; [|done].
  case_match; [done|]. case_bool_decide as Hnew; [done|]. simpl.
  destruct (Hwf _ _ Hl) as (Hid & Hhost & Hnodup).
  apply map_Forall_insert_2; [|done]. split_and!; simpl; [done| |].
  - apply elem_of_app. by left.
  - apply NoDup_app. split_and!; [done | | apply NoDup_singleton].
    intros q Hq Hq'. apply list_elem_of_singleton in Hq'. by subst.
Qed.

Lemma leaveLobby_wf d p st :
  lobbies_wf st → lobbies_wf (leaveLobby d p st).1.
Proof.
  intros Hwf. unfold leaveLobby.
  destruct (lobbySubscriptions st !! p) as [lid|]; [|done].
  destruct (truthy lid); [|done]. simpl.
  destruct (lobbies st !! lid) as [lobby|] eqn:Hl; [|done].
  destruct (Hwf _ _ Hl) as (Hid & Hhost & Hnodup).
  assert (Hnd : NoDup (filter (λ id, id ≠ p) (Lobby.players lobby)))
    by by apply NoDup_filter.
  case_bool_decide as Hp.
  - destruct (filter _ _) as [|q rest] eqn:Hf; simpl.
    + by apply map_Forall_delete.
    + apply map_Forall_insert_2; [|done]. split_and!; simpl; [done | by left | done].
  - simpl. apply map_Forall_insert_2; [|done]. split_and!; simpl; [done | | done].
    apply list_elem_of_filter. done.
Qed.

Lemma afterMessage_wf d me msg st :
  lobbies_wf st → lobbies_wf (afterMessage d me msg st).
Proof.
  intros Hwf. destruct msg; simpl; try done.
  - apply map_Forall_insert_2; [|done]. split_and!; simpl;
      [done | by left | apply NoDup_singleton].
  - by apply joinLobby_wf.
  - by apply leaveLobby_wf.
  - unfold delistLobby. destruct (lobbySubscriptions st !! me) as [lid|]; [|done].
    simpl. destruct (lobbies st !! lid); [|done].
    case_bool_decide; [done|]. by apply map_Forall_delete.
  - unfold addChatMessage. destruct (lobbySubscriptions st !! me) as [lid|]; [|done].
    simpl. destruct (lobbies st !! lid) as [lobby|] eqn:Hl; [|done].
    case_bool_decide; simpl; [|done].
    eapply wf_reinsert; [done..| | |]; by case_match.
  - unfold regeneratePassword. destruct (lobbySubscriptions st !! me) as [lid|]; [|done].
    simpl. destruct (lobbies st !! lid) as [lobby|] eqn:Hl; [|done].
    case_bool_decide; [done|]. by eapply wf_reinsert.
  - unfold togglePrivacy. destruct (lobbySubscriptions st !! me) as [lid|]; [|done].
    simpl. destruct (lobbies st !! lid) as [lobby|] eqn:Hl; [|done].
    case_bool_decide; [done|]. by eapply wf_reinsert.
Qed.

Lemma reachable_lobbies_wf ok st : Reachable ok st → lobbies_wf st.
Proof.
  apply Reachable_ind_inv.
  - apply map_Forall_empty.
  - intros. by apply afterMessage_wf.
  - intros d me st' cs ws _ _ Hwf. by apply leaveLobby_wf.
Qed.

Lemma leaveLobby_players d p st : players (leaveLobby d p st).1 = players st.
Proof. unfold leaveLobby. by repeat case_match. Qed.

Lemma afterMessage_players_wf d me msg st :
  players_wf st → players_wf (afterMessage d me msg st).
Proof.
  intros Hwf. destruct msg; simpl; try done.
  - apply map_Forall_insert_2; [|done]. split; simpl; [done|].
    unfold levelOr1. destruct level as [n|]; [|done].
    destruct (Z.eqb_spec n 0); [done|done].
  - unfold joinLobby. by repeat case_match.
  - unfold players_wf. by rewrite leaveLobby_players.
  - unfold delistLobby. by repeat case_match.
  - unfold addChatMessage. by repeat case_match.
  - unfold regeneratePassword. by repeat case_match.
  - unfold togglePrivacy. by repeat case_match.
Qed.

Lemma reachable_players_wf ok st : Reachable ok st → players_wf st.
Proof.
  apply Reachable_ind_inv.
  - apply map_Forall_empty.
  - intros. by apply afterMessage_players_wf.
  - intros d me st' cs ws _ _ Hwf. unfold players_wf, forget. simpl.
    rewrite leaveLobby_players. by apply map_Forall_delete.
Qed.

Lemma duo_reachable ok :
  allowed ok Scenario.duo initial → Reachable ok (run Scenario.duo initial).
Proof. intros. apply Reachable_run; [constructor | done]. Qed.

Lemma duo_any_reachable : Reachable any_event (run Scenario.duo initial).
Proof. apply duo_reachable. by repeat split. Qed.

Lemma named_duo_any_reachable : Reachable any_event (run Scenario.named_duo initial).
Proof. apply Reachable_run; [constructor | by repeat split]. Qed.

(** X1. In every reachable state, whatever the frames were, the host of
    each stored lobby is one of its members; in particular no stored
    lobby has an empty member list. *)
Theorem X1_host_is_member st lid lobby :
  Reachable any_event st →
  lobbies st !! lid = Some lobby →
  Lobby.hostId lobby ∈ Lobby.players lobby ∧ Lobby.players lobby ≠ [].
Proof.
  intros Hreach Hl.
  destruct (reachable_lobbies_wf _ _ Hreach _ _ Hl) as (_ & Hhost & _).
  split; [done|]. intros Hnil. rewrite Hnil in Hhost. by apply elem_of_nil in Hhost.
Qed.

Lemma X1_host_is_member_witness :
  Lobby.hostId Scenario.duo_lobby ∈ Lobby.players Scenario.duo_lobby
  ∧ Lobby.players Scenario.duo_lobby ≠ [].
Proof.
  exact (X1_host_is_member _ "L1" Scenario.duo_lobby
           duo_any_reachable duo_lobby_stored).
Defined.

(** X2. In every reachable state no stored lobby lists a member twice. *)
Theorem X2_members_distinct st lid lobby :
  Reachable any_event st →
  lobbies st !! lid = Some lobby →
  NoDup (Lobby.players lobby).
Proof.
  intros Hreach Hl. by destruct (reachable_lobbies_wf _ _ Hreach _ _ Hl) as (_ & _ & ?).
Qed.

Lemma X2_members_distinct_witness : NoDup (Lobby.players Scenario.duo_lobby).
Proof.
  exact (X2_members_distinct _ "L1" Scenario.duo_lobby
           duo_any_reachable duo_lobby_stored).
Defined.

(** X3. In every reachable state each lobby is stored under its own
    [id], each player record under its own [id], and no stored player
    has level 0 ([data.level || 1] turns 0 into 1). *)
Theorem X3_records_filed_under_own_id st :
  Reachable any_event st →
  (∀ lid lobby, lobbies st !! lid = Some lobby → Lobby.id lobby = lid)
  ∧ (∀ pid p, players st !! pid = Some p →
       Player.id p = pid ∧ Player.level p ≠ 0%Z).
Proof.
  intros Hreach. split.
  - intros lid lobby Hl.
    by destruct (reachable_lobbies_wf _ _ Hreach _ _ Hl) as (? & _ & _).
  - intros pid p Hp. by apply (reachable_players_wf _ _ Hreach).
Qed.

Lemma X3_records_filed_under_own_id_witness :
  let st := run Scenario.named_duo initial in
  (∀ lid lobby, lobbies st !! lid = Some lobby → Lobby.id lobby = lid)
  ∧ (∀ pid p, players st !! pid = Some p →
       Player.id p = pid ∧ Player.level p ≠ 0%Z).
Proof. exact (X3_records_filed_under_own_id _ named_duo_any_reachable). Defined.

(** ** The public list *)

Lemma listed_iff_public st lid lobby :
  lobbies_wf st →
  lobbies st !! lid = Some lobby →
  (∃ s, s ∈ getPublicLobbies st ∧ s_id s = lid) ↔ Lobby.isPrivate lobby = false.
Proof.
  intros Hwf Hl. split.
  - intros (s & Hs & Hid).
    apply getPublicLobbies_elem in Hs as (lid' & lobby' & Hl' & Hpub & ->).
    destruct (Hwf _ _ Hl') as (Hid' & _). simpl in Hid. congruence.
  - intros Hpub. exists (summary st lobby). split.
    + apply getPublicLobbies_elem. eauto.
    + simpl. by destruct (Hwf _ _ Hl).
Qed.

(** X4. In a reachable state the public list has an entry with a given
    lobby id exactly when the lobby stored under that id is not private:
    private lobbies are never listed and public ones always are. *)
Theorem X4_private_lobbies_hidden st lid lobby :
  Reachable any_event st →
  lobbies st !! lid = Some lobby →
  (∃ s, s ∈ getPublicLobbies st ∧ s_id s = lid) ↔ Lobby.isPrivate lobby = false.
Proof.
  intros Hreach. apply listed_iff_public. by eapply reachable_lobbies_wf.
Qed.

Lemma X4_private_lobbies_hidden_witness :
  let st := run Scenario.duo initial in
  (∃ s, s ∈ getPublicLobbies st ∧ s_id s = "L1")
  ↔ Lobby.isPrivate Scenario.duo_lobby = false.
Proof.
  exact (X4_private_lobbies_hidden _ "L1" Scenario.duo_lobby
           duo_any_reachable duo_lobby_stored).
Defined.

(** ** Fan-out *)

Lemma Forall_sendToClient (P : Sent → Prop) c type data :
  (isOpen c = true → P (mkSent c type data)) → Forall P (sendToClient c type data).
Proof.
  intros HP. unfold sendToClient. destruct (isOpen c); [|constructor].
  constructor; [by apply HP | constructor].
Qed.

Lemma Forall_broadcast (P : Sent → Prop) cs type data :
  (∀ c, c ∈ cs → isOpen c = true → P (mkSent c type data)) →
  Forall P (broadcast cs type data).
Proof.
  intros HP. apply Forall_forall. intros s Hs.
  apply list_elem_of_bind in Hs as (c & Hs & Hc).
  unfold sendToClient in Hs. destruct (isOpen c) eqn:Hopen.
  - apply list_elem_of_singleton in Hs as ->. by apply HP.
  - by apply elem_of_nil in Hs.
Qed.

Lemma Forall_broadcastToLobby (P : Sent → Prop) st cs lobbyId type data exclude :
  (∀ lobby c,
     lobbies_get st lobbyId = Some lobby → c ∈ cs → isOpen c = true →
     playerId c ∈ Lobby.players lobby → differs exclude c = true →
     P (mkSent c type data)) →
  Forall P (broadcastToLobby st cs lobbyId type data exclude).
Proof.
  intros HP. unfold broadcastToLobby.
  destruct (lobbies_get st lobbyId) as [lobby|]; [|constructor].
  apply Forall_broadcast. intros c Hc Hopen.
  apply list_elem_of_filter in Hc as [[Hmember Hdiff] Hc]. by eapply HP.
Qed.

(** Splits what a handler sent into its single sends and broadcasts. *)
Ltac each_send :=
  unfold lobbiesUpdated;
  repeat first
    [ apply Forall_nil_2
    | apply Forall_app; split
    | apply Forall_sendToClient; intros ?
    | apply Forall_broadcast; intros ? ? ?
    | apply Forall_broadcastToLobby; intros ? ? ? ? ? ? ? ].

(** Runs the method a frame dispatches to and splits on its result. *)
Ltac run_handler :=
  simpl;
  repeat match goal with
    | |- context [let '(_, _) := ?x in _] => destruct x as [? [?|?]] eqn:?
    | |- context [match ?x with Success _ => _ | Failure _ => _ end] =>
        destruct x eqn:?
    | |- context [match ?x with LobbyDeleted => _ | StillOpen _ => _ end] =>
        destruct x
    end;
  simpl.

Lemma broadcast_open cs type data :
  broadcast cs type data
  = (λ c, mkSent c type data) <$> filter (λ c, isOpen c = true) cs.
Proof.
  unfold broadcast. induction cs as [|c cs IH]; [done|].
  rewrite filter_cons. simpl. unfold sendToClient at 1.
  destruct (isOpen c) eqn:Hopen.
  - rewrite decide_True by done. simpl. f_equal. exact IH.
  - rewrite decide_False by done. exact IH.
Qed.

Lemma broadcastToLobby_open st cs lobbyId type data exclude :
  broadcastToLobby st cs lobbyId type data exclude
  = match lobbies_get st lobbyId with
    | Some lobby =>
        (λ c, mkSent c type data)
          <$> filter (λ c, isOpen c = true)
                (filter (λ c, playerId c ∈ Lobby.players lobby
                              ∧ differs exclude c = true) cs)
    | None => []
    end.
Proof.
  unfold broadcastToLobby. destruct (lobbies_get st lobbyId); [|done].
  apply broadcast_open.
Qed.

(** X6. Nothing is ever sent to a socket that is not open, whatever the
    event and the state. *)
Theorem X6_only_open_sockets_are_sent_to e st :
  Forall (λ s, isOpen (recipient s) = true) (step e st).2.
Proof.
  destruct e as [cs d ws msg|cs d ws]; simpl.
  - destruct msg; run_handler; each_send; done.
  - unfold onClose. run_handler; each_send; done.
Qed.

(** ** Who is sent what *)

Lemma sendToClient_inv c type data s :
  s ∈ sendToClient c type data → s = mkSent c type data ∧ isOpen c = true.
Proof.
  unfold sendToClient. destruct (isOpen c); intros Hs.
  - by apply list_elem_of_singleton in Hs.
  - by apply elem_of_nil in Hs.
Qed.

Lemma broadcast_inv cs type data s :
  s ∈ broadcast cs type data → ∃ c, c ∈ cs ∧ isOpen c = true ∧ s = mkSent c type data.
Proof.
  intros Hs. apply list_elem_of_bind in Hs as (c & Hs & Hc).
  apply sendToClient_inv in Hs as [-> Hopen]. eauto.
Qed.

Lemma broadcast_elem cs type data c :
  c ∈ cs → isOpen c = true → mkSent c type data ∈ broadcast cs type data.
Proof.
  intros Hc Hopen. apply list_elem_of_bind. exists c. split; [|done].
  unfold sendToClient. rewrite Hopen. by left.
Qed.

Lemma broadcastToLobby_inv st cs lobbyId type data exclude s :
  s ∈ broadcastToLobby st cs lobbyId type data exclude →
  ∃ lobby c,
    lobbies_get st lobbyId = Some lobby ∧ c ∈ cs ∧ isOpen c = true
    ∧ playerId c ∈ Lobby.players lobby ∧ differs exclude c = true
    ∧ s = mkSent c type data.
Proof.
  unfold broadcastToLobby. destruct (lobbies_get st lobbyId) as [lobby|]; intros Hs.
  - apply broadcast_inv in Hs as (c & Hc & Hopen & ->).
    apply list_elem_of_filter in Hc as [[Hmember Hdiff] Hc]. by exists lobby, c.
  - by apply elem_of_nil in Hs.
Qed.

(** Traces one sent envelope back to the send or broadcast it came from. *)
Ltac which_send H :=
  unfold lobbiesUpdated in H;
  repeat (apply elem_of_app in H as [H|H]);
  first
    [ by apply elem_of_nil in H
    | apply sendToClient_inv in H as [-> ?]
    | apply broadcast_inv in H as (? & ? & ? & ->)
    | apply broadcastToLobby_inv in H as (? & ? & ? & ? & ? & ? & ? & ->) ].

(** What [joinLobby] did when it succeeded. *)
Lemma joinLobby_success_inv d lobbyId p st st' lobby' :
  joinLobby d lobbyId p st = (st', Success lobby') →
  ∃ lid lobby,
    lobbyId = Some lid
    ∧ lobbies st !! lid = Some lobby
    ∧ (Z.of_nat (length (Lobby.players lobby)) < Lobby.maxPlayers lobby)%Z
    ∧ (p ∉ Lobby.players lobby)
    ∧ lobby' = Lobby.push_chat
                 (systemMessage (uuid1 d)
                    (nameOf st p "Player" +:+ " joined the lobby") (now1 d))
                 (Lobby.set_players (Lobby.players lobby ++ [p]) lobby)
    ∧ st' = mkState (<[lid := lobby']> (lobbies st)) (players st)
                    (<[p := lid]> (lobbySubscriptions st)).
Proof.
  unfold joinLobby. destruct lobbyId as [lid|]; [|done]. simpl.
  destruct (lobbies st !! lid) as [lobby|] eqn:Hl; [|done].
  destruct (Z.geb_spec (Z.of_nat (length (Lobby.players lobby)))
              (Lobby.maxPlayers lobby)); [done|].
  case_bool_decide; [done|]. intros [= <- <-]. by exists lid, lobby.
Qed.

(** A method that fails hands back the maps it was given. *)
Lemma failure_keeps_state d c st error :
  (call d c st).2 = Some error → (call d c st).1 = st.
Proof.
  destruct c; simpl; try done;
    unfold joinLobby, leaveLobby, delistLobby, addChatMessage,
           regeneratePassword, togglePrivacy;
    run_method; done.
Qed.

Lemma broadcastToLobby_elem st cs lid lobby type data exclude c :
  lobbies st !! lid = Some lobby →
  c ∈ cs → isOpen c = true → playerId c ∈ Lobby.players lobby →
  differs exclude c = true →
  mkSent c type data ∈ broadcastToLobby st cs (Some lid) type data exclude.
Proof.
  intros Hl Hc Hopen Hmember Hdiff. rewrite broadcastToLobby_open. simpl.
  rewrite Hl. apply list_elem_of_fmap. exists c. split; [done|].
  apply list_elem_of_filter. split; [done|]. by apply list_elem_of_filter.
Qed.

(** X5. When a player joins a lobby that has room and does not list it
    yet, the [player_joined] envelopes go to exactly the sockets of
    [wss.clients] that are open, whose player is a member of the lobby
    after the join, and that are not the joiner's own socket; each
    carries the joiner's player record, if any, and the lobby as stored
    after the join. The joiner's socket is never told of its own join. *)
Theorem X5_joiner_is_not_told_of_its_own_join cs d ws lid lobby st s :
  lobbies st !! lid = Some lobby →
  (Z.of_nat (length (Lobby.players lobby)) < Lobby.maxPlayers lobby)%Z →
  playerId ws ∉ Lobby.players lobby →
  let shown :=
    match players st !! playerId ws with
    | Some record =>
        match Player.name record with
        | EmptyString => "Player"
        | name => name
        end
    | None => "Player"
    end in
  let joined :=
    Lobby.mk (Lobby.id lobby) (Lobby.title lobby) (Lobby.hostId lobby)
      (Lobby.players lobby ++ [playerId ws])
      (Lobby.maxPlayers lobby) (Lobby.password lobby)
      (Lobby.isPrivate lobby) (Lobby.createdAt lobby)
      (Lobby.chatMessages lobby
       ++ [ChatMessage.mk (uuid1 d) "System"
             (shown +:+ " joined the lobby") (now1 d)]) in
  s ∈ (onMessage cs d ws (JoinLobby (Some lid)) st).2 ∧ type s = "player_joined"
  ↔ ∃ c,
      c ∈ cs
      ∧ readyState c = OPEN
      ∧ playerId c ∈ Lobby.players lobby ++ [playerId ws]
      ∧ sock c ≠ sock ws
      ∧ s = mkSent c "player_joined"
              (DPlayerJoined (players st !! playerId ws) joined).
Proof.
  intros Hl Hroom Hnew shown joined.
  assert (Hshown : nameOf st (playerId ws) "Player" = shown).
  { unfold nameOf, shown, or_else.
    destruct (players st !! playerId ws) as [[? [|] ?]|]; done. }
  unfold onMessage, joinLobby. simpl. rewrite Hl.
  destruct (Z.geb_spec (Z.of_nat (length (Lobby.players lobby)))
              (Lobby.maxPlayers lobby)); [lia|].
  rewrite bool_decide_eq_false_2 by done. simpl.
  unfold Lobby.push_chat, Lobby.set_chatMessages, Lobby.set_players,
         systemMessage. simpl. rewrite Hshown. fold joined.
  split.
  - intros [Hs Htype]. which_send Hs; try done.
    simpl in *. rewrite lookup_insert_eq in *. simplify_eq.
    eexists. split_and!; try done.
    + unfold isOpen in *. by destruct (readyState _).
    + unfold differs in *. intros Heq. rewrite Heq, Nat.eqb_refl in *. done.
  - intros (c & Hc & Hopen & Hmember & Hsock & ->). split; [|done].
    apply elem_of_app. right. apply elem_of_app. left.
    apply (broadcastToLobby_elem _ _ lid joined); try done.
    + apply lookup_insert_eq.
    + unfold isOpen. by rewrite Hopen.
    + unfold differs. apply negb_true_iff, Nat.eqb_neq. done.
Qed.

Lemma X5_joiner_is_not_told_of_its_own_join_witness :
  let out := (onMessage Scenario.everyone (Scenario.draws "m1" "m2") Scenario.P
                (JoinLobby (Some "L1")) (run Scenario.solo initial)).2 in
  mkSent Scenario.H "player_joined" (DPlayerJoined None Scenario.duo_lobby) ∈ out
  ∧ mkSent Scenario.P "player_joined" (DPlayerJoined None Scenario.duo_lobby) ∉ out.
Proof.
  intros out.
  assert (Hnew : playerId Scenario.P ∉ Lobby.players Scenario.solo_lobby).
  { intros Hin. apply list_elem_of_singleton in Hin. discriminate. }
  split.
  - apply (X5_joiner_is_not_told_of_its_own_join Scenario.everyone
             (Scenario.draws "m1" "m2") Scenario.P "L1" Scenario.solo_lobby
             (run Scenario.solo initial)
             (mkSent Scenario.H "player_joined" (DPlayerJoined None Scenario.duo_lobby))
             solo_lobby_stored eq_refl Hnew).
    exists Scenario.H. split_and!; [left | done | left | discriminate | reflexivity].
  - intros Hsent.
    destruct (proj1 (X5_joiner_is_not_told_of_its_own_join Scenario.everyone
                       (Scenario.draws "m1" "m2") Scenario.P "L1" Scenario.solo_lobby
                       (run Scenario.solo initial)
                       (mkSent Scenario.P "player_joined"
                          (DPlayerJoined None Scenario.duo_lobby))
                       solo_lobby_stored eq_refl Hnew)
                (conj Hsent eq_refl))
      as (c & _ & _ & _ & Hsock & [= <-]).
    by apply Hsock.
Defined.

(** X7. An envelope that discloses the password of a lobby, be it a
    full lobby object ([lobby_created], [lobby_joined], [player_joined],
    [player_left]), a lobby view ([lobby_details]) or the password
    itself ([password_updated]), is only ever sent to a socket whose
    player is a member of that lobby, as the store holds it once the
    event is handled. *)
Theorem X7_password_only_sent_to_members e st :
  Forall (λ s, confidential (data s) →
               ∃ lid lobby,
                 lobbies (step e st).1 !! lid = Some lobby
                 ∧ discloses (step e st).1 (data s) lobby
                 ∧ playerId (recipient s) ∈ Lobby.players lobby)
         (step e st).2.
Proof.
  apply Forall_forall. intros s Hs Hconf.
  destruct e as [cs d ws msg|cs d ws]; unfold step in *.
  - destruct msg; unfold onMessage in *.
    + which_send Hs; done.
    + which_send Hs; done.
    + simpl in *. which_send Hs; [|done]. simpl.
      eexists _, _. split; [apply lookup_insert_eq|]. split; [done | by left].
    + destruct (joinLobby d lobbyId (playerId ws) st) as [st1 [lobby1|error]] eqn:Hjoin.
      * apply joinLobby_success_inv in Hjoin
          as (lid & lobby0 & -> & Hl0 & _ & _ & Hlobby1 & ->).
        simpl in *. which_send Hs; simpl in *; try done.
        -- exists lid, lobby1. rewrite lookup_insert_eq. split_and!; try done.
           subst lobby1. simpl. apply elem_of_app. right. by left.
        -- rewrite lookup_insert_eq in *. simplify_eq.
           eexists lid, _. rewrite lookup_insert_eq. done.
      * which_send Hs; done.
    + pose proof (leaveLobby_success_unsubscribes d (playerId ws) st) as Hnone.
      destruct (leaveLobby d (playerId ws) st) as [st1 [outcome|error]].
      * simpl in Hnone. destruct outcome; which_send Hs; simpl in *; try done.
        rewrite (Hnone _ eq_refl) in *. done.
      * which_send Hs; done.
    + destruct (delistLobby _ _ st) as [st1 [[]|error]]; which_send Hs; done.
    + destruct (addChatMessage _ _ _ _ st) as [st1 [m|error]]; which_send Hs; done.
    + destruct (regeneratePassword d _ _ st) as [st1 [pw|error]] eqn:Hregen.
      * simpl in *. which_send Hs; simpl in *.
        unfold regeneratePassword in Hregen.
        destruct (lobbySubscriptions st !! playerId ws) as [lid|]; [|done].
        simpl in *. destruct (lobbies st !! lid) as [lobby0|]; [|done].
        case_bool_decide; [done|]. simplify_eq. simpl in *.
        rewrite lookup_insert_eq in *. simplify_eq.
        eexists lid, _. rewrite lookup_insert_eq. done.
      * which_send Hs; done.
    + destruct (togglePrivacy _ _ st) as [st1 [b|error]]; which_send Hs; done.
    + destruct (getLobbyDetails _ _ st) as [view|error] eqn:Hdetails;
        which_send Hs; simpl in *; [|done].
      unfold getLobbyDetails in Hdetails.
      destruct (lobbySubscriptions st !! playerId ws) as [lid|]; [|done].
      simpl in *. destruct (lobbies st !! lid) as [lobby0|] eqn:Hl0; [|done].
      case_bool_decide; simpl in *; [|done]. simplify_eq.
      exists lid, lobby0. split_and!; try done.
      unfold viewOf. by rewrite resolvePlayers_omap.
    + which_send Hs; done.
    + which_send Hs; done.
  - unfold onClose in *.
    pose proof (leaveLobby_success_unsubscribes d (playerId ws) st) as Hnone.
    destruct (leaveLobby d (playerId ws) st) as [st1 [outcome|error]]; simpl in *.
    + destruct outcome; which_send Hs; simpl in *; try done.
      rewrite (Hnone _ eq_refl) in *. done.
    + which_send Hs; done.
Qed.

(** X8. An [error] envelope is only ever sent to the socket whose frame
    failed: when one is sent it is the only envelope of that frame, it
    goes to the requester, and the three maps are left as they were. *)
Theorem X8_error_only_to_requester cs d ws msg st s :
  s ∈ (onMessage cs d ws msg st).2 →
  type s = "error" →
  (onMessage cs d ws msg st).1 = st
  ∧ (onMessage cs d ws msg st).2 = [s]
  ∧ recipient s = ws.
Proof.
  intros Hs Htype.
  assert (Hsingle : ∀ error,
            s ∈ sendToClient ws "error" (DError error) →
            sendToClient ws "error" (DError error) = [s] ∧ recipient s = ws).
  { intros error H. apply sendToClient_inv in H as [-> Hopen].
    unfold sendToClient. by rewrite Hopen. }
  destruct msg; simpl in *.
  - which_send Hs; done.
  - which_send Hs; done.
  - which_send Hs; done.
  - pose proof (failure_keeps_state d (CallJoin lobbyId (playerId ws)) st) as Hkeep.
    simpl in Hkeep.
    destruct (joinLobby d lobbyId (playerId ws) st) as [st1 [lobby1|error]]; simpl in *.
    + which_send Hs; done.
    + split; [by eapply Hkeep | by apply Hsingle].
  - pose proof (failure_keeps_state d (CallLeave (playerId ws)) st) as Hkeep.
    simpl in Hkeep.
    destruct (leaveLobby d (playerId ws) st) as [st1 [outcome|error]]; simpl in *.
    + destruct outcome; which_send Hs; done.
    + split; [by eapply Hkeep | by apply Hsingle].
  - pose proof (failure_keeps_state d
                  (CallDelist (lobbySubscriptions st !! playerId ws) (playerId ws)) st)
      as Hkeep.
    simpl in Hkeep.
    destruct (delistLobby _ _ st) as [st1 [[]|error]]; simpl in *.
    + which_send Hs; done.
    + split; [by eapply Hkeep | by apply Hsingle].
  - pose proof (failure_keeps_state d
                  (CallChat (lobbySubscriptions st !! playerId ws) (playerId ws) message)
                  st) as Hkeep.
    simpl in Hkeep.
    destruct (addChatMessage _ _ _ _ st) as [st1 [m|error]]; simpl in *.
    + which_send Hs; done.
    + split; [by eapply Hkeep | by apply Hsingle].
  - pose proof (failure_keeps_state d
                  (CallRegenerate (lobbySubscriptions st !! playerId ws) (playerId ws))
                  st) as Hkeep.
    simpl in Hkeep.
    destruct (regeneratePassword _ _ _ st) as [st1 [pw|error]]; simpl in *.
    + which_send Hs; done.
    + split; [by eapply Hkeep | by apply Hsingle].
  - pose proof (failure_keeps_state d
                  (CallToggle (lobbySubscriptions st !! playerId ws) (playerId ws)) st)
      as Hkeep.
    simpl in Hkeep.
    destruct (togglePrivacy _ _ st) as [st1 [b|error]]; simpl in *.
    + which_send Hs; done.
    + split; [by eapply Hkeep | by apply Hsingle].
  - destruct (getLobbyDetails _ _ st) as [view|error]; simpl in *.
    + which_send Hs; done.
    + split; [done | by apply Hsingle].
  - split; [done | by apply Hsingle].
  - split; [done | by apply Hsingle].
Qed.

Lemma X8_error_only_to_requester_witness :
  let st := run Scenario.duo initial in
  let d := Scenario.draws "m3" "m4" in
  let s := mkSent Scenario.Q "error" (DError "Lobby is full") in
  (onMessage Scenario.everyone d Scenario.Q (JoinLobby (Some "L1")) st).1 = st
  ∧ (onMessage Scenario.everyone d Scenario.Q (JoinLobby (Some "L1")) st).2 = [s]
  ∧ recipient s = Scenario.Q.
Proof.
  intros st d s.
  apply (X8_error_only_to_requester Scenario.everyone d Scenario.Q
           (JoinLobby (Some "L1")) st s); [|reflexivity].
  vm_compute. left.
Defined.

(** X9. Whenever a handler sends [lobbies_updated], the envelope carries
    the public list of the maps as that handler left them, and every
    open socket of [wss.clients] is sent it. *)
Theorem X9_lobbies_updated_is_current_and_for_all e st s :
  s ∈ (step e st).2 →
  type s = "lobbies_updated" →
  data s = DLobbies (getPublicLobbies (step e st).1)
  ∧ ∀ c, c ∈ clients_of e → isOpen c = true →
         mkSent c "lobbies_updated" (data s) ∈ (step e st).2.
Proof.
  intros Hs Htype.
  assert (Hall : ∀ st1 (before : list Sent),
            s ∈ lobbiesUpdated st1 (clients_of e) →
            data s = DLobbies (getPublicLobbies st1)
            ∧ ∀ c, c ∈ clients_of e → isOpen c = true →
                   mkSent c "lobbies_updated" (data s)
                   ∈ before ++ lobbiesUpdated st1 (clients_of e)).
  { intros st1 before H. unfold lobbiesUpdated in *.
    apply broadcast_inv in H as (c0 & _ & _ & ->). split; [done|].
    intros c Hc Hopen. apply elem_of_app. right. by apply broadcast_elem. }
  destruct e as [cs d ws msg|cs d ws]; simpl in *.
  - destruct msg; simpl in *.
    + which_send Hs; done.
    + which_send Hs; done.
    + apply elem_of_app in Hs as [Hs|Hs]; [which_send Hs; done|]. by apply Hall.
    + destruct (joinLobby d lobbyId (playerId ws) st) as [st1 [lobby1|error]]; simpl in *.
      * rewrite app_assoc in *.
        apply elem_of_app in Hs as [Hs|Hs]; [which_send Hs; done|]. by apply Hall.
      * which_send Hs; done.
    + destruct (leaveLobby d (playerId ws) st) as [st1 [outcome|error]]; simpl in *.
      * rewrite app_assoc in *.
        apply elem_of_app in Hs as [Hs|Hs]; [destruct outcome; which_send Hs; done|].
        by apply Hall.
      * which_send Hs; done.
    + destruct (delistLobby _ _ st) as [st1 [[]|error]]; simpl in *.
      * apply elem_of_app in Hs as [Hs|Hs]; [which_send Hs; done|]. by apply Hall.
      * which_send Hs; done.
    + destruct (addChatMessage _ _ _ _ st) as [st1 [m|error]]; which_send Hs; done.
    + destruct (regeneratePassword _ _ _ st) as [st1 [pw|error]]; which_send Hs; done.
    + destruct (togglePrivacy _ _ st) as [st1 [b|error]]; simpl in *.
      * apply elem_of_app in Hs as [Hs|Hs]; [which_send Hs; done|]. by apply Hall.
      * which_send Hs; done.
    + destruct (getLobbyDetails _ _ st) as [view|error]; which_send Hs; done.
    + which_send Hs; done.
    + which_send Hs; done.
  - unfold onClose in *.
    destruct (leaveLobby d (playerId ws) st) as [st1 [outcome|error]]; simpl in *.
    + apply elem_of_app in Hs as [Hs|Hs]; [destruct outcome; which_send Hs; done|].
      by apply Hall.
    + by apply (Hall _ []).
Qed.

Lemma X9_lobbies_updated_is_current_and_for_all_witness :
  let e := Scenario.frame "L1" "m0" Scenario.H (CreateLobby "A" (Some 2%Z)) in
  let list := DLobbies (getPublicLobbies (step e initial).1) in
  data (mkSent Scenario.P "lobbies_updated" list) = list
  ∧ mkSent Scenario.Q "lobbies_updated" list ∈ (step e initial).2.
Proof.
  intros e list.
  destruct (X9_lobbies_updated_is_current_and_for_all e initial
              (mkSent Scenario.P "lobbies_updated" list)) as [Hdata Hall];
    [vm_compute; right; right; left | reflexivity |].
  split; [exact Hdata|].
  apply (Hall Scenario.Q); [right; right; left | reflexivity].
Defined.

(** ** Chat delivery *)



(** ** Joining and leaving *)

Lemma filter_others_id (p : string) (ids : list string) :
  p ∉ ids → filter (λ id, id ≠ p) ids = ids.
Proof.
  induction ids as [|q ids IH]; [done|]. intros Hnot.
  apply not_elem_of_cons in Hnot as [Hne Hnot].
  rewrite filter_cons, decide_True by done. f_equal. by apply IH.
Qed.

(** X11. On a stored lobby [joinLobby] succeeds exactly when the lobby
    has room and the player is not yet listed; neither [isPrivate] nor
    [password] is consulted. The lobby it returns is the old one with
    the player appended after the existing members and a system message
    appended to the chat. *)
Theorem X11_join_needs_only_room d lid p lobby st lobby' :
  lobbies st !! lid = Some lobby →
  (joinLobby d (Some lid) p st).2 = Success lobby'
  ↔ (Z.of_nat (length (Lobby.players lobby)) < Lobby.maxPlayers lobby)%Z
    ∧ (p ∉ Lobby.players lobby)
    ∧ lobby' = Lobby.push_chat
                 (systemMessage (uuid1 d)
                    (nameOf st p "Player" +:+ " joined the lobby") (now1 d))
                 (Lobby.set_players (Lobby.players lobby ++ [p]) lobby).
Proof.
  intros Hl. split.
  - destruct (joinLobby d (Some lid) p st) as [st1 r] eqn:Hjoin. simpl. intros ->.
    apply joinLobby_success_inv in Hjoin as (? & ? & [= <-] & ? & ? & ? & ? & _).
    by simplify_eq.
  - intros (Hroom & Hnew & ->). unfold joinLobby. simpl. rewrite Hl.
    destruct (Z.geb_spec (Z.of_nat (length (Lobby.players lobby)))
                (Lobby.maxPlayers lobby)); [lia|].
    by rewrite bool_decide_eq_false_2.
Qed.

Lemma X11_join_needs_only_room_witness :
  let st := run Scenario.solo initial in
  let d := Scenario.draws "m1" "m2" in
  (joinLobby d (Some "L1") "P" st).2 = Success Scenario.duo_lobby.
Proof.
  intros st d.
  apply (X11_join_needs_only_room d "L1" "P" Scenario.solo_lobby st);
    [exact solo_lobby_stored|].
  split_and!; [vm_compute; reflexivity | | reflexivity].
  intros Hin. apply list_elem_of_singleton in Hin. discriminate.
Defined.

(** X12. A player who joins a lobby and leaves it again leaves the
    member list, the host and the subscription index as they were
    before; only the chat history keeps a trace, the two system
    messages. *)
Theorem X12_join_then_leave d1 d2 lid p lobby st :
  lobbies st !! lid = Some lobby →
  truthy lid = true →
  (Z.of_nat (length (Lobby.players lobby)) < Lobby.maxPlayers lobby)%Z →
  p ∉ Lobby.players lobby →
  Lobby.hostId lobby ≠ p →
  let joined := (joinLobby d1 (Some lid) p st).1 in
  let r := leaveLobby d2 p joined in
  ∃ lobby2,
    r.2 = Success (StillOpen lobby2)
    ∧ lobbies r.1 = <[lid := lobby2]> (lobbies st)
    ∧ Lobby.players lobby2 = Lobby.players lobby
    ∧ Lobby.hostId lobby2 = Lobby.hostId lobby
    ∧ Lobby.chatMessages lobby2
      = Lobby.chatMessages lobby
        ++ [systemMessage (uuid1 d1)
              (nameOf st p "Player" +:+ " joined the lobby") (now1 d1);
            systemMessage (uuid1 d2)
              (nameOf st p "Player" +:+ " left the lobby") (now1 d2)]
    ∧ lobbySubscriptions r.1 = delete p (lobbySubscriptions st)
    ∧ players r.1 = players st.
Proof.
  intros Hl Htruthy Hroom Hnew Hhost joined r. subst r joined.
  unfold joinLobby. simpl. rewrite Hl.
  destruct (Z.geb_spec (Z.of_nat (length (Lobby.players lobby)))
              (Lobby.maxPlayers lobby)); [lia|].
  rewrite bool_decide_eq_false_2 by done. simpl.
  unfold leaveLobby. simpl. rewrite !lookup_insert_eq, Htruthy. simpl.
  rewrite bool_decide_eq_false_2 by done. simpl.
  eexists. split; [reflexivity|]. simpl.
  rewrite insert_insert_eq, delete_insert_eq.
  split_and!; try done.
  - rewrite filter_app, filter_others_id by done.
    rewrite filter_cons, decide_False by (intros Hne; by apply Hne).
    by rewrite filter_nil, app_nil_r.
  - by rewrite <- app_assoc.
Qed.

Lemma X12_join_then_leave_witness :
  let st := run Scenario.solo initial in
  let r := leaveLobby (Scenario.draws "m3" "m4") "P"
             (joinLobby (Scenario.draws "m1" "m2") (Some "L1") "P" st).1 in
  ∃ lobby2,
    r.2 = Success (StillOpen lobby2)
    ∧ lobbies r.1 = <["L1" := lobby2]> (lobbies st)
    ∧ Lobby.players lobby2 = ["H"]
    ∧ Lobby.hostId lobby2 = "H"
    ∧ Lobby.chatMessages lobby2
      = Lobby.chatMessages Scenario.solo_lobby
        ++ [systemMessage "m1" "Player joined the lobby" 0;
            systemMessage "m3" "Player left the lobby" 0]
    ∧ lobbySubscriptions r.1 = delete "P" (lobbySubscriptions st)
    ∧ players r.1 = players st.
Proof.
  intros st r.
  apply (X12_join_then_leave (Scenario.draws "m1" "m2") (Scenario.draws "m3" "m4")
           "L1" "P" Scenario.solo_lobby st);
    [exact solo_lobby_stored | reflexivity | vm_compute; reflexivity | | discriminate].
  intros Hin. apply list_elem_of_singleton in Hin. discriminate.
Defined.

(** X13. Created by a connection without subscription under a fresh,
    non-empty id, a lobby that its host leaves right away, or delists
    right away, is gone without a trace: the three maps are exactly
    those before the creation. *)
Theorem X13_create_then_leave_or_delist d d' title me maxPlayers st :
  lobbies st !! uuid1 d = None →
  truthy (uuid1 d) = true →
  lobbySubscriptions st !! me = None →
  let created := (createLobby d title me maxPlayers st).1 in
  leaveLobby d' me created = (st, Success LobbyDeleted)
  ∧ delistLobby (Some (uuid1 d)) me created = (st, Success ()).
Proof.
  intros Hfresh Htruthy Hout created. subst created. split.
  - unfold leaveLobby. simpl. rewrite !lookup_insert_eq, Htruthy. simpl.
    rewrite bool_decide_eq_true_2 by done.
    rewrite filter_cons, decide_False by (intros Hne; by apply Hne).
    rewrite filter_nil. simpl.
    rewrite !delete_insert_id by done. by destruct st.
  - unfold delistLobby. simpl. rewrite lookup_insert_eq.
    rewrite bool_decide_eq_false_2 by (intros Hne; by apply Hne). simpl.
    rewrite !delete_insert_id by done. by destruct st.
Qed.

Lemma X13_create_then_leave_or_delist_witness :
  let d := Scenario.draws "L1" "m0" in
  let d' := Scenario.draws "m1" "m2" in
  let created := (createLobby d "A" "H" None initial).1 in
  leaveLobby d' "H" created = (initial, Success LobbyDeleted)
  ∧ delistLobby (Some "L1") "H" created = (initial, Success ()).
Proof.
  intros d d' created.
  apply (X13_create_then_leave_or_delist d d' "A" "H" None initial); reflexivity.
Defined.

(** X14. [leaveLobby] by a member who is not the host never removes the
    lobby and never changes its host: the lobby is put back without the
    leaver, the other members keep their order, and the leaver's
    subscription is gone. *)
Theorem X14_member_leaves d p lid lobby st :
  lobbySubscriptions st !! p = Some lid →
  truthy lid = true →
  lobbies st !! lid = Some lobby →
  Lobby.hostId lobby ≠ p →
  let r := leaveLobby d p st in
  ∃ lobby',
    r.2 = Success (StillOpen lobby')
    ∧ lobbies r.1 = <[lid := lobby']> (lobbies st)
    ∧ Lobby.hostId lobby' = Lobby.hostId lobby
    ∧ Lobby.players lobby' = filter (λ id, id ≠ p) (Lobby.players lobby)
    ∧ last (Lobby.chatMessages lobby')
      = Some (systemMessage (uuid1 d)
                (nameOf st p "Player" +:+ " left the lobby") (now1 d))
    ∧ lobbySubscriptions r.1 = delete p (lobbySubscriptions st).
Proof.
  intros Hsub Htruthy Hl Hhost r. subst r.
  unfold leaveLobby. rewrite Hsub, Htruthy, Hl. simpl.
  rewrite bool_decide_eq_false_2 by done. simpl.
  eexists. split; [reflexivity|]. split_and!; try done.
  unfold Lobby.push_chat. simpl. apply last_snoc.
Qed.

Lemma X14_member_leaves_witness :
  let r := leaveLobby (Scenario.draws "m3" "m4") "P" (run Scenario.duo initial) in
  ∃ lobby',
    r.2 = Success (StillOpen lobby')
    ∧ lobbies r.1 = <["L1" := lobby']> (lobbies (run Scenario.duo initial))
    ∧ Lobby.hostId lobby' = "H"
    ∧ Lobby.players lobby' = filter (λ id, id ≠ "P") ["H"; "P"]
    ∧ last (Lobby.chatMessages lobby')
      = Some (systemMessage "m3" "Player left the lobby" 0)
    ∧ lobbySubscriptions r.1
      = delete "P" (lobbySubscriptions (run Scenario.duo initial)).
Proof.
  intros r.
  apply (X14_member_leaves (Scenario.draws "m3" "m4") "P" "L1" Scenario.duo_lobby
           (run Scenario.duo initial));
    [vm_compute; reflexivity | reflexivity | exact duo_lobby_stored | discriminate].
Defined.

(** ** Delisting *)

(** X15. [delistLobby] by the host succeeds; it removes that lobby and
    no other, clears the subscription of each of its members and of
    nobody else, and leaves the player registry alone. *)
Theorem X15_delist_by_host lid me lobby st :
  lobbies st !! lid = Some lobby →
  Lobby.hostId lobby = me →
  let r := delistLobby (Some lid) me st in
  r.2 = Success ()
  ∧ lobbies r.1 = delete lid (lobbies st)
  ∧ players r.1 = players st
  ∧ ∀ pid, lobbySubscriptions r.1 !! pid
           = if decide (pid ∈ Lobby.players lobby) then None
             else lobbySubscriptions st !! pid.
Proof.
  intros Hl Hhost r. subst r. unfold delistLobby. simpl. rewrite Hl.
  rewrite bool_decide_eq_false_2 by (intros Hne; by apply Hne). simpl.
  split_and!; try done. intros pid. apply unsubscribeAll_lookup.
Qed.

Lemma X15_delist_by_host_witness :
  let st := run Scenario.duo initial in
  let r := delistLobby (Some "L1") "H" st in
  r.2 = Success ()
  ∧ lobbies r.1 = delete "L1" (lobbies st)
  ∧ players r.1 = players st
  ∧ ∀ pid, lobbySubscriptions r.1 !! pid
           = if decide (pid ∈ ["H"; "P"]) then None
             else lobbySubscriptions st !! pid.
Proof.
  exact (X15_delist_by_host "L1" "H" Scenario.duo_lobby (run Scenario.duo initial)
           duo_lobby_stored eq_refl).
Defined.

(** ** Chat history *)

(** X16. After a member's [addChatMessage] the stored history has at
    most 100 entries and ends with the new message; it is the old
    history plus the new message with some entries taken off the front
    and none elsewhere, and nothing is taken off while the old history
    has fewer than 100 entries. *)
Theorem X16_chat_history_capped d lid pid text lobby st :
  lobbies st !! lid = Some lobby →
  pid ∈ Lobby.players lobby →
  let r := addChatMessage d (Some lid) pid text st in
  ∃ lobby' m dropped,
    r.2 = Success m
    ∧ lobbies r.1 !! lid = Some lobby'
    ∧ length (Lobby.chatMessages lobby') ≤ 100
    ∧ Lobby.chatMessages lobby ++ [m] = dropped ++ Lobby.chatMessages lobby'
    ∧ last (Lobby.chatMessages lobby') = Some m
    ∧ (length (Lobby.chatMessages lobby) < 100 → dropped = []).
Proof.
  intros Hl Hin r. subst r.
  destruct (addChatMessage_history d lid pid text lobby st Hl Hin)
    as (lobby' & m & -> & Hhist & Hlen & _).
  exists lobby', m, (take (length (Lobby.chatMessages lobby ++ [m]) - 100)
                          (Lobby.chatMessages lobby ++ [m])).
  simpl. rewrite lookup_insert_eq, Hhist.
  split_and!; try done.
  - by rewrite <- Hhist.
  - by rewrite slice_last_suffix.
  - unfold slice_last. rewrite length_app. simpl.
    rewrite drop_app_le by lia. apply last_snoc.
  - intros Hshort. rewrite length_app. simpl.
    replace (length (Lobby.chatMessages lobby) + 1 - 100) with 0 by lia. done.
Qed.

Lemma chatty_lobby_stored :
  lobbies (run Scenario.chatty initial) !! "L1" = Some chatty_lobby.
Proof. vm_compute. reflexivity. Qed.

Lemma X16_chat_history_capped_witness :
  let st := run Scenario.chatty initial in
  let r := addChatMessage (Scenario.draws "c" "c") (Some "L1") "H" "one more" st in
  ∃ lobby' m dropped,
    r.2 = Success m
    ∧ lobbies r.1 !! "L1" = Some lobby'
    ∧ length (Lobby.chatMessages lobby') ≤ 100
    ∧ Lobby.chatMessages chatty_lobby ++ [m]
      = dropped ++ Lobby.chatMessages lobby'
    ∧ last (Lobby.chatMessages lobby') = Some m
    ∧ (length (Lobby.chatMessages chatty_lobby) < 100 → dropped = []).
Proof.
  intros st r.
  apply (X16_chat_history_capped (Scenario.draws "c" "c") "L1" "H" "one more"
           chatty_lobby st);
    [exact chatty_lobby_stored | left].
Defined.

(** ** Passwords *)





(** ** Closing a connection *)

Lemma reachable_exact st : Reachable joins_from_outside st → subscriptions_exact st.
Proof.
  apply Reachable_ind_inv.
  - split; simpl.
    + intros pid lid. rewrite lookup_empty. split; [done|].
      intros (? & Hl & _). by rewrite lookup_empty in Hl.
    + intros lid lobby Hl. by rewrite lookup_empty in Hl.
  - intros. by eapply afterMessage_exact.
  - intros d me st' cs ws _ _ Hex. apply forget_exact.
    + by apply leaveLobby_unsubscribes.
    + by apply leaveLobby_exact.
Qed.

(** X18. As long as connections create or join a lobby only while they
    hold no subscription, closing a socket removes every trace of its
    player: no player record, no subscription, and no stored lobby
    lists it any more. *)
Theorem X18_close_removes_every_trace cs d ws st :
  Reachable joins_from_outside st →
  let st' := (onClose cs d ws st).1 in
  players st' !! playerId ws = None
  ∧ lobbySubscriptions st' !! playerId ws = None
  ∧ ∀ lid lobby, lobbies st' !! lid = Some lobby → playerId ws ∉ Lobby.players lobby.
Proof.
  intros Hreach st'. subst st'.
  assert (Hex : subscriptions_exact (onClose cs d ws st).1).
  { apply reachable_exact. apply (reach_step _ st (Close cs d ws)); [done|].
    by split. }
  rewrite onClose_state in *. simpl. rewrite !lookup_delete_eq.
  split_and!; try done.
  intros lid lobby Hl Hin.
  pose proof (member_subscribed _ Hex _ _ _ Hl Hin) as Hsub.
  simpl in Hsub. by rewrite lookup_delete_eq in Hsub.
Qed.

Lemma X18_close_removes_every_trace_witness :
  let st' := (onClose [Scenario.H; Scenario.Q] (Scenario.draws "m3" "m4")
                Scenario.P (run Scenario.duo initial)).1 in
  players st' !! "P" = None
  ∧ lobbySubscriptions st' !! "P" = None
  ∧ ∀ lid lobby, lobbies st' !! lid = Some lobby → "P" ∉ Lobby.players lobby.
Proof.
  apply (X18_close_removes_every_trace [Scenario.H; Scenario.Q]
           (Scenario.draws "m3" "m4") Scenario.P (run Scenario.duo initial)).
  apply duo_reachable. vm_compute. tauto.
Defined.

(** ** What a frame does to other connections *)

Lemma leaveLobby_subscriptions d p st pid :
  pid ≠ p →
  lobbySubscriptions (leaveLobby d p st).1 !! pid = lobbySubscriptions st !! pid.
Proof.
  intros Hne. unfold leaveLobby.
  repeat case_match; simpl; try done; by rewrite lookup_delete_ne.
Qed.

(** X19. An event on one socket never touches the player record of
    another connection, and it can change another connection's
    subscription in one way only, by clearing it (which [delist_lobby]
    does for the members of the delisted lobby); it never subscribes
    another connection to anything. *)
Theorem X19_other_connections_untouched e st pid :
  pid ≠ playerId (socket_of e) →
  players (step e st).1 !! pid = players st !! pid
  ∧ (lobbySubscriptions (step e st).1 !! pid = lobbySubscriptions st !! pid
     ∨ lobbySubscriptions (step e st).1 !! pid = None).
Proof.
  intros Hne. destruct e as [cs d ws msg|cs d ws]; simpl in *.
  - rewrite onMessage_state. destruct msg; simpl; try (split; [done | by left]).
    + split; [by rewrite lookup_insert_ne | by left].
    + split; [done|]. left. by rewrite lookup_insert_ne.
    + unfold joinLobby. repeat case_match; simpl; try (split; [done | by left]).
      split; [done|]. left. by rewrite lookup_insert_ne.
    + rewrite leaveLobby_players. split; [done|]. left.
      by apply leaveLobby_subscriptions.
    + unfold delistLobby. repeat case_match; simpl; try (split; [done | by left]).
      split; [done|]. rewrite unsubscribeAll_lookup.
      destruct (decide (pid ∈ _)); [by right | by left].
    + unfold addChatMessage. repeat case_match; simpl; split; done || by left.
    + unfold regeneratePassword. repeat case_match; simpl; split; done || by left.
    + unfold togglePrivacy. repeat case_match; simpl; split; done || by left.
  - rewrite onClose_state. simpl. rewrite !lookup_delete_ne by done.
    rewrite leaveLobby_players. split; [done|]. left.
    by apply leaveLobby_subscriptions.
Qed.

Lemma X19_other_connections_untouched_witness :
  let st := run Scenario.named_duo initial in
  let e := Scenario.frame "m3" "m4" Scenario.P LeaveLobby in
  players (step e st).1 !! "H" = players st !! "H"
  ∧ (lobbySubscriptions (step e st).1 !! "H" = lobbySubscriptions st !! "H"
     ∨ lobbySubscriptions (step e st).1 !! "H" = None).
Proof.
  intros st e. apply (X19_other_connections_untouched e st "H"). discriminate.
Defined.

(** ** Making a lobby private *)

(** X23. When the host of a public lobby sends [toggle_privacy], the
    lobby is stored as private and every public list sent out by that
    very handler already leaves it out. *)
Theorem X23_toggle_to_private_hides_at_once cs d ws lid lobby st s listed :
  Reachable any_event st →
  lobbySubscriptions st !! playerId ws = Some lid →
  lobbies st !! lid = Some lobby →
  Lobby.hostId lobby = playerId ws →
  Lobby.isPrivate lobby = false →
  s ∈ (onMessage cs d ws TogglePrivacy st).2 →
  data s = DLobbies listed →
  Lobby.isPrivate <$> lobbies (onMessage cs d ws TogglePrivacy st).1 !! lid = Some true
  ∧ Forall (λ x, s_id x ≠ lid) listed.
Proof.
  intros Hreach Hsub Hl Hhost Hpub.
  pose proof (reachable_lobbies_wf _ _ Hreach) as Hwf.
  unfold onMessage. rewrite Hsub. unfold togglePrivacy. simpl. rewrite Hl.
  rewrite bool_decide_eq_false_2 by (intros Hne; by apply Hne). simpl.
  rewrite lookup_insert_eq, Hpub. simpl.
  set (lobby' := Lobby.set_isPrivate true lobby).
  set (st1 := mkState (<[lid := lobby']> (lobbies st)) (players st)
                      (lobbySubscriptions st)).
  intros Hs Hdata. split; [done|]. apply Forall_forall. intros x Hx Hid.
  assert (Hwf1 : lobbies_wf st1) by by eapply wf_reinsert.
  assert (Hl1 : lobbies st1 !! lid = Some lobby') by apply lookup_insert_eq.
  apply elem_of_app in Hs as [Hs|Hs].
  - apply broadcastToLobby_inv in Hs as (? & ? & _ & _ & _ & _ & _ & ->). done.
  - apply broadcast_inv in Hs as (c & _ & _ & ->). simpl in Hdata.
    injection Hdata as <-.
    assert (Lobby.isPrivate lobby' = false); [|done].
    apply (listed_iff_public st1 lid lobby' Hwf1 Hl1). eauto.
Qed.

Lemma two_hosts_lobby_stored :
  lobbies (run two_hosts initial) !! "L1"
  = Some first_of_two.
Proof. vm_compute. reflexivity. Qed.

Lemma X23_toggle_to_private_hides_at_once_witness :
  let st := run two_hosts initial in
  let r := onMessage Scenario.everyone (Scenario.draws "m3" "m4") Scenario.H
             TogglePrivacy st in
  Lobby.isPrivate <$> lobbies r.1 !! "L1" = Some true
  ∧ Forall (λ x, s_id x ≠ "L1") [mkSummary "L2" "B" [] 3 0].
Proof.
  intros st r.
  apply (X23_toggle_to_private_hides_at_once Scenario.everyone
           (Scenario.draws "m3" "m4") Scenario.H "L1" first_of_two st
           (mkSent Scenario.Q "lobbies_updated" (DLobbies [mkSummary "L2" "B" [] 3 0])));
    [apply Reachable_run; [constructor | by repeat split]
    | vm_compute; reflexivity | exact two_hosts_lobby_stored
    | reflexivity | reflexivity | | reflexivity].
  vm_compute. right. right. right. left.
Defined.

(** * The client service *)

Module WebSocketServiceProperties.
Import WebSocketService.

Lemma handleMessage_registered {A} svc type (data : A) :
  handleMessage svc type data = (λ handler, (handler, data)) <$> registered svc type.
Proof. unfold handleMessage, registered. by destruct (eventHandlers svc !! type). Qed.

Lemma registered_on t h svc t' :
  registered (on t h svc) t'
  = registered svc t' ++ (if decide (t' = t) then [h] else []).
Proof.
  unfold registered, on.
  destruct (eventHandlers svc !! t) as [hs|] eqn:Ht; simpl.
  - rewrite Ht. simpl. rewrite lookup_insert.
    destruct (decide (t = t')) as [->|Hne].
    + rewrite decide_True by done. by rewrite Ht.
    + rewrite decide_False by done. by rewrite app_nil_r.
  - rewrite lookup_insert_eq. simpl. rewrite insert_insert_eq, lookup_insert.
    destruct (decide (t = t')) as [->|Hne].
    + rewrite decide_True by done. by rewrite Ht.
    + rewrite decide_False by done. by rewrite app_nil_r.
Qed.

Lemma indexOf_absent hs h : h ∉ hs → indexOf hs h = (-1)%Z.
Proof.
  induction hs as [|x hs IH]; [done|]. intros Hnot.
  apply not_elem_of_cons in Hnot as [Hne Hnot]. simpl.
  rewrite decide_False by done. by rewrite IH.
Qed.

Lemma indexOf_first before after h :
  h ∉ before → indexOf (before ++ h :: after) h = Z.of_nat (length before).
Proof.
  induction before as [|x before IH]; intros Hnot; simpl.
  - by rewrite decide_True.
  - apply not_elem_of_cons in Hnot as [Hne Hnot].
    rewrite decide_False by done. rewrite IH by done.
    destruct (Z.gtb_spec (Z.of_nat (length before)) (-1)); lia.
Qed.

Lemma drop_past {A} (l : list A) x r : drop (S (length l)) (l ++ x :: r) = r.
Proof. induction l as [|y l IH]; [done | exact IH]. Qed.

Lemma registered_off_handler t h svc t' :
  registered (off t (Some h) svc) t'
  = if decide (t' = t) then
      (if (indexOf (registered svc t) h >? -1)%Z
       then splice1 (registered svc t) (indexOf (registered svc t) h)
       else registered svc t)
    else registered svc t'.
Proof.
  unfold registered, off.
  destruct (eventHandlers svc !! t) as [hs|] eqn:Ht; simpl.
  - destruct (indexOf hs h >? -1)%Z eqn:Hidx; simpl.
    + rewrite lookup_insert. destruct (decide (t = t')) as [->|Hne].
      * by rewrite decide_True.
      * by rewrite decide_False.
    + destruct (decide (t' = t)) as [->|Hne]; [by rewrite Ht | done].
  - destruct (decide (t' = t)) as [->|Hne]; [by rewrite Ht | done].
Qed.

(** X20. [on] registers the handler after the handlers already
    registered for that type, also when it is already among them, and
    changes no other type: a later message of that type calls the old
    handlers in their order and then the new one. *)
Theorem X20_on_registers_last {A} t h svc t' (data : A) :
  handleMessage (on t h svc) t' data
  = handleMessage svc t' data ++ (if decide (t' = t) then [(h, data)] else []).
Proof.
  rewrite !handleMessage_registered, registered_on, fmap_app.
  by destruct (decide (t' = t)).
Qed.

(** X21. [off] with a handler removes the first registration of that
    handler for the type and nothing else: later registrations of the
    same handler stay, other handlers keep their order; when the
    handler is not registered for the type nothing changes. *)
Theorem X21_off_removes_first_registration t h svc :
  (h ∉ registered svc t → registered (off t (Some h) svc) t = registered svc t)
  ∧ (∀ before after,
       registered svc t = before ++ h :: after → h ∉ before →
       registered (off t (Some h) svc) t = before ++ after)
  ∧ (∀ t', t' ≠ t → registered (off t (Some h) svc) t' = registered svc t').
Proof.
  split_and!.
  - intros Hnot. rewrite registered_off_handler, decide_True by done.
    by rewrite indexOf_absent.
  - intros before after Hsplit Hnot.
    rewrite registered_off_handler, decide_True by done.
    rewrite Hsplit, indexOf_first by done.
    destruct (Z.gtb_spec (Z.of_nat (length before)) (-1)); [|lia].
    unfold splice1. rewrite Nat2Z.id.
    by rewrite take_app_length, drop_past.
  - intros t' Hne. by rewrite registered_off_handler, decide_False.
Qed.

Lemma X21_off_removes_first_registration_witness :
  let svc := on "error" 7 (on "error" 8 (on "error" 7 (mk None 0 false ∅))) in
  registered svc "error" = [7; 8; 7]
  ∧ registered (off "error" (Some 7) svc) "error" = [8; 7].
Proof.
  intros svc. split; [reflexivity|].
  destruct (X21_off_removes_first_registration "error" 7 svc) as (_ & Hfirst & _).
  apply (Hfirst [] [8; 7]); [reflexivity|]. apply not_elem_of_nil.
Defined.

(** X22. Registering a handler that is not yet registered for the type
    and removing it again leaves every dispatch as it was. *)
Theorem X22_on_then_off {A} t h svc t' (data : A) :
  h ∉ registered svc t →
  handleMessage (off t (Some h) (on t h svc)) t' data = handleMessage svc t' data.
Proof.
  intros Hnot. rewrite !handleMessage_registered. f_equal.
  rewrite registered_off_handler, !registered_on.
  destruct (decide (t' = t)) as [->|Hne]; [|by rewrite app_nil_r].
  rewrite decide_True by done. rewrite indexOf_first by done.
  destruct (Z.gtb_spec (Z.of_nat (length (registered svc t))) (-1)); [|lia].
  unfold splice1. by rewrite Nat2Z.id, take_app_length, drop_past, app_nil_r.
Qed.

Lemma X22_on_then_off_witness :
  let svc := on "error" 8 (mk None 0 false ∅) in
  handleMessage (off "error" (Some 7) (on "error" 7 svc)) "error" "full"
  = handleMessage svc "error" "full".
Proof.
  intros svc. apply (X22_on_then_off "error" 7 svc "error" "full").
  vm_compute. intros Hin. apply list_elem_of_singleton in Hin. discriminate.
Defined.

(** [off] without handler silences its type and no other;
    [disconnect] silences every type and leaves the service not
    connected. *)
Theorem off_type_and_disconnect {A} t svc t' (data : A) :
  handleMessage (off t None svc) t' data
  = (if decide (t' = t) then [] else handleMessage svc t' data)
  ∧ handleMessage (disconnect svc) t' data = []
  ∧ isConnected (disconnect svc) = false
  ∧ send (disconnect svc) t' data = [].
Proof.
  split_and!; try done.
  unfold handleMessage, off. simpl. rewrite lookup_delete.
  destruct (decide (t = t')) as [->|Hne].
  - by rewrite decide_True.
  - by rewrite decide_False.
Qed.

Lemma retries_spec n svc :
  reconnectAttempts svc ≤ maxReconnectAttempts →
  reconnectAttempts (retries n svc).1
  = min (reconnectAttempts svc + n) maxReconnectAttempts
  ∧ (retries n svc).2 = min n (maxReconnectAttempts - reconnectAttempts svc).
Proof.
  unfold maxReconnectAttempts.
  revert svc. induction n as [|n IH]; intros svc Hle.
  - cbn [retries fst snd]. lia.
  - cbn [retries]. unfold attemptReconnect, maxReconnectAttempts.
    destruct (Nat.ltb_spec (reconnectAttempts svc) 5) as [Hlt|Hge].
    + specialize (IH (mk (ws svc) (S (reconnectAttempts svc)) (isConnecting svc)
                         (eventHandlers svc))).
      cbn [reconnectAttempts] in IH.
      destruct (retries n _) as [svc2 timers]. cbn [fst snd] in *.
      destruct IH as [-> ->]; lia.
    + specialize (IH svc Hle).
      destruct (retries n svc) as [svc2 timers]. cbn [fst snd] in *.
      destruct IH as [-> ->]. lia.
Qed.

(** X24. However often the socket closes in a row, [attemptReconnect]
    sets at most [maxReconnectAttempts] = 5 reconnect timers counted
    from a fresh service, and the counter never passes 5: after [n]
    calls the counter is [min (old + n) 5] and [min n (5 - old)] timers
    were set. *)
Theorem X24_reconnect_attempts_bounded n svc :
  reconnectAttempts svc ≤ 5 →
  reconnectAttempts (retries n svc).1 = min (reconnectAttempts svc + n) 5
  ∧ (retries n svc).2 = min n (5 - reconnectAttempts svc)
  ∧ (retries n svc).2 ≤ 5.
Proof.
  intros Hle. destruct (retries_spec n svc Hle) as [Hcount Htimers].
  unfold maxReconnectAttempts in *. split_and!; [done | done | lia].
Qed.

Lemma X24_reconnect_attempts_bounded_witness :
  let svc := mk None 0 false ∅ in
  reconnectAttempts (retries 9 svc).1 = 5 ∧ (retries 9 svc).2 = 5.
Proof.
  intros svc.
  destruct (X24_reconnect_attempts_bounded 9 svc) as (Hcount & Htimers & _);
    [simpl; lia|].
  split; [exact Hcount | exact Htimers].
Defined.

End WebSocketServiceProperties.
